(** * Audio-to-motion synthesis (App.jsx): a shallow embedding

    The embedded functions are the exported utilities of [src/src/App.jsx]:
    [normalize], the three overflow resolvers [default_peak],
    [create_peak_bounce], [create_peak_fold], the synthesizer
    [create_actions_barrier] / [create_actions], the speed estimator
    [_speed] / [speed], the exporter [dumpFunscript], the auto-tuner
    [autoval] and the segmentation loop of the worker's [onmessage];
    further the worker's extractors [getRMS], [getPitch], [framesToTime]
    and [getBeats], and the renderer [render_heatmap_js] with its
    [colorMap].

    Number model.  A JavaScript number is an exact rational ([Q]).  Every
    quotient taken in [Q] has a constant divisor or sits behind the
    source's own test that the divisor is not zero.  Where the source
    handles a non-finite value (the literal [Infinity] of the objectives,
    the quotients of [_speed], the frame energies and frame times of the
    extractors, the argument of [colorMap]) the value lives in [num], the
    rationals extended with the IEEE special values, where a division by
    zero yields them.  Overflow to an infinity is modelled in the speed
    estimator ([to_double]); a statement about another function that
    needs the range of a double carries it as a hypothesis
    ([overflow_bound], [range_fits]).  Rounding error and the sign of zero
    are not modelled.  Rationals are compared with [==] ([Qeq]): the
    source's [===] on numbers is numeric equality. *)

From Stdlib Require Import ZArith QArith Qround Qabs Qminmax Lqa Lia.
From Stdlib Require Import List String.
From stdpp Require Import base option list gmap strings.
Import ListNotations.

Local Open Scope Q_scope.

#[local] Set Warnings "-register-all".

(** ** Numbers *)

Definition Qltb (x y : Q) : bool := negb (Qle_bool y x).

(** [Math.round]: the nearest integer, halves rounded towards +infinity. *)
Definition Math_round (x : Q) : Q := inject_Z (Qfloor (x + (1 # 2))).

Module JsNum.

Inductive num : Type :=
| Fin (q : Q)
| PInf
| NInf
| NaN.

Definition is_zero (q : Q) : bool := Qeq_bool q 0.

Definition neg (a : num) : num :=
  match a with
  | Fin q => Fin (- q)
  | PInf => NInf
  | NInf => PInf
  | NaN => NaN
  end.

Definition add (a b : num) : num :=
  match a, b with
  | NaN, _ | _, NaN => NaN
  | Fin x, Fin y => Fin (x + y)
  | PInf, NInf | NInf, PInf => NaN
  | PInf, _ | _, PInf => PInf
  | NInf, _ | _, NInf => NInf
  end.

Definition sub (a b : num) : num := add a (neg b).

(** [a / b]; a zero divisor is the positive zero. *)
Definition div (a b : num) : num :=
  match a, b with
  | NaN, _ | _, NaN => NaN
  | Fin x, Fin y =>
      if is_zero y then
        if is_zero x then NaN else if Qltb 0 x then PInf else NInf
      else Fin (x / y)
  | Fin _, (PInf | NInf) => Fin 0
  | PInf, Fin y => if Qltb y 0 then NInf else PInf
  | NInf, Fin y => if Qltb y 0 then PInf else NInf
  | (PInf | NInf), (PInf | NInf) => NaN
  end.

Definition abs (a : num) : num :=
  match a with
  | Fin q => Fin (Qabs q)
  | PInf | NInf => PInf
  | NaN => NaN
  end.

(** [a < b]; false as soon as one side is NaN. *)
Definition ltb (a b : num) : bool :=
  match a, b with
  | NaN, _ | _, NaN => false
  | Fin x, Fin y => Qltb x y
  | NInf, NInf => false
  | NInf, _ => true
  | _, PInf => match a with PInf => false | _ => true end
  | _, _ => false
  end.

(** [Math.min(a, b)] and [Math.max(a, b)]. *)
Definition min (a b : num) : num :=
  match a, b with
  | NaN, _ | _, NaN => NaN
  | _, _ => if ltb b a then b else a
  end.

Definition max (a b : num) : num :=
  match a, b with
  | NaN, _ | _, NaN => NaN
  | _, _ => if ltb a b then b else a
  end.

End JsNum.

Import JsNum.

(** ** Data model *)

(** An action [{at, pos}]. *)
Record Action : Type := mkAction { a_at : Q; a_pos : Q }.

(** The extractor's output [{at, beats, pitch, energy}]; a field that is
    missing on the object is [None]. *)
Record AudioFeatures : Type := mkFeatures {
  d_at : Q;
  d_beats : option (list Q);
  d_pitch : option (list Q);
  d_energy : option (list Q)
}.

(** [processedData = { ...data }] with the two properties [create_actions]
    adds to it. *)
Record ProcessedData : Type := mkProcessed {
  p_data : AudioFeatures;
  p_offsets : option (list Q);
  p_energy_to_pos : option (list Q)
}.

(** ** normalize *)

(** [Math.min(...data)] and [Math.max(...data)] on a non-empty array. *)
Definition Math_min_of (x : Q) (xs : list Q) : Q := fold_left Qmin xs x.
Definition Math_max_of (x : Q) (xs : list Q) : Q := fold_left Qmax xs x.

Definition normalize (data : option (list Q)) : list Q :=
  match data with
  | None | Some [] => []
  | Some ((x :: xs) as l) =>
      let fmin := Math_min_of x xs in
      let fmax := Math_max_of x xs in
      if Qeq_bool fmax fmin then map (fun _ => 1 # 2) l
      else map (fun value => (value - fmin) / (fmax - fmin)) l
  end.

(** ** OverflowResolver *)

Definition default_peak (pos at_ : Q) : list Action :=
  [ {| a_at := at_; a_pos := Qmin (Qmax 0 pos) 100 |} ].

Definition int_at (pos at_ last_pos last_at limit : Q) : Q :=
  let before_ratio := Qabs (last_pos - limit) in
  let after_ratio := Qabs (pos - limit) in
  if Qeq_bool (after_ratio + before_ratio) 0 then at_
  else (before_ratio * at_ + after_ratio * last_at) / (after_ratio + before_ratio).

(** The local closure [action = (p, a) => actions.push({at: a, pos: Math.round(p)})]
    of both resolvers: the pushed element. *)
Definition action (p a : Q) : Action := {| a_at := a; a_pos := Math_round p |}.

Definition create_peak_bounce (pos at_ last_pos last_at : Q) : list Action :=
  let actions := [] in
  let actions :=
    if Qltb last_pos 0 then
      let tmp_at := int_at pos at_ last_pos last_at 0 in
      actions ++ [action 0 tmp_at]
    else if Qltb 100 last_pos then
      let tmp_at := int_at pos at_ last_pos last_at 100 in
      actions ++ [action 100 tmp_at]
    else actions in
  let actions :=
    if Qltb 100 pos then
      let tmp_at := int_at pos at_ last_pos last_at 100 in
      actions ++ [action 100 tmp_at; action (200 - pos) at_]
    else if Qltb pos 0 then
      let tmp_at := int_at pos at_ last_pos last_at 0 in
      actions ++ [action 0 tmp_at; action (- pos) at_]
    else actions ++ [action pos at_] in
  actions.

Definition create_peak_fold (pos at_ last_pos last_at : Q) : list Action :=
  let actions := [] in
  let int_att := (last_at + at_) / 2 in
  let travel := Qabs (last_pos - pos) / 2 in
  let actions :=
    if Qltb last_pos 0 then actions ++ [action (last_pos + travel) int_att]
    else if Qltb 100 last_pos then actions ++ [action (last_pos - travel) int_att]
    else actions in
  let actions :=
    if Qltb pos 0 then
      actions ++ [action (last_pos - travel) int_att; action last_pos at_]
    else if Qltb 100 pos then
      actions ++ [action (last_pos + travel) int_att; action last_pos at_]
    else actions ++ [action pos at_] in
  actions.

(** A resolver as it is called from the synthesizer, with the four
    arguments [(pos, at, last_pos, last_at)]; [default_peak] ignores the
    last two. *)
Definition peak_fn : Type := Q -> Q -> Q -> Q -> list Action.

Definition peaks : list peak_fn :=
  [ (fun pos at_ _ _ => default_peak pos at_); create_peak_bounce; create_peak_fold ].

(** [peaks[Math.floor(overflow)]]; [None] is [undefined]. *)
Definition peaks_at (overflow : Q) : option peak_fn :=
  let k := Qfloor overflow in
  if (k <? 0)%Z then None else peaks !! Z.to_nat k.

(** ** ActionSynthesizer *)

(** The mutable locals of [create_actions_barrier]. *)
Record BarrierState : Type := mkBarrier {
  last_at : Q;
  last_pos : Q;
  actions : list Action
}.

(** The accumulator before the first segment. *)
Definition barrier_init (start_time : Q) : BarrierState :=
  {| last_at := start_time; last_pos := 50; actions := [] |}.

(** One iteration of the loop body, for the resolver [peak]. *)
Definition barrier_step (peak : peak_fn) (st : BarrierState)
    (unoffset_pos at_ offset : Q) : BarrierState :=
  (* up *)
  let intermediate_at := (at_ + last_at st) / 2 in
  let pos := unoffset_pos + offset in
  let acts := actions st ++ peak pos intermediate_at (last_pos st) (last_at st) in
  let last_at1 := intermediate_at in
  let last_pos1 := pos in
  (* down *)
  let pos := unoffset_pos * -1 + offset in
  let acts := acts ++ peak pos at_ last_pos1 last_at1 in
  {| last_at := at_; last_pos := pos; actions := acts |}.

(** The [for] loop over [i = 0 .. num_frames - 1]; calling the [undefined]
    entry of [peaks] throws ([None]). *)
Fixpoint barrier_loop (energy_to_pos beats offsets : list Q) (overflow : Q)
    (idx : list nat) (st : BarrierState) : option BarrierState :=
  match idx with
  | [] => Some st
  | i :: rest =>
      let unoffset_pos := default 0 (energy_to_pos !! i) in
      let at_ := default 0 (beats !! i) in
      let offset := default 0 (offsets !! i) in
      peak ← peaks_at overflow;
      barrier_loop energy_to_pos beats offsets overflow rest
        (barrier_step peak st unoffset_pos at_ offset)
  end.

Definition create_actions_barrier (data : ProcessedData)
    (start_time overflow : Q) : option (list Action) :=
  match p_energy_to_pos data, d_beats (p_data data), p_offsets data with
  | Some energy_to_pos, Some beats, Some offsets =>
      let num_frames :=
        Nat.min (Nat.min (length energy_to_pos) (length beats)) (length offsets) in
      st ← barrier_loop energy_to_pos beats offsets overflow
             (seq 0 num_frames) (barrier_init start_time);
      Some (actions st)
  | _, _, _ => Some []
  end.

(** The object [processedData] of [create_actions] when it reaches its last
    statement: the copy [{ ...data }] with [offsets] and [energy_to_pos]. *)
Definition processed_data (data : AudioFeatures)
    (energy_multiplier pitch_range amplitude_centering center_offset : Q)
    : ProcessedData :=
  let normalized_pitch := normalize (d_pitch data) in
  let normalized_energy := normalize (d_energy data) in
  let pitch_bias := (100 - pitch_range) / 2 in
  let offsets :=
    imap (fun i pitch =>
            pitch * pitch_range + pitch_bias
            + amplitude_centering * default 0 (normalized_energy !! i)
            + center_offset)
         (take (length normalized_energy) normalized_pitch) in
  let energy_to_pos :=
    map (fun e => e * energy_multiplier * 50) normalized_energy in
  {| p_data := data;
     p_offsets := Some offsets;
     p_energy_to_pos := Some energy_to_pos |}.

(** [create_actions]: its last statement is
    [return create_actions_barrier(processedData, overflow)], a call with
    two arguments, so [overflow] is bound to the callee's second parameter
    [start_time] and the callee's third parameter takes its default 0. *)
Definition create_actions (data : AudioFeatures)
    (energy_multiplier pitch_range overflow amplitude_centering center_offset : Q)
    : option (list Action) :=
  match d_pitch data, d_energy data with
  | Some _, Some _ =>
      let processedData :=
        processed_data data energy_multiplier pitch_range
                       amplitude_centering center_offset in
      create_actions_barrier processedData overflow 0
  | _, _ => Some []
  end.

(** The synthesis call in the spec's words (sections 4.2 and 6): the same
    per-segment targets, folded from the accumulator [(50, 0)] and resolved
    with the policy that [overflowMode] names. *)
Definition synthesis_spec (data : AudioFeatures)
    (energyMultiplier pitchRange overflowMode amplitudeCentering centerOffset : Q)
    : option (list Action) :=
  match d_pitch data, d_energy data with
  | Some _, Some _ =>
      create_actions_barrier
        (processed_data data energyMultiplier pitchRange
                        amplitudeCentering centerOffset)
        0 overflowMode
  | _, _ => Some []
  end.

(** ** SpeedEstimator *)

(** The magnitude from which on a result is an infinity:
    [Number.MAX_VALUE] plus half a unit in its last place. *)
Definition overflow_bound : Q := inject_Z (2 ^ 1024 - 2 ^ 970).

(** The number that holds the exact result [q] of an operation on finite
    numbers: an infinity when [q] is out of the range of a double. *)
Definition to_double (q : Q) : num :=
  if Qle_bool overflow_bound q then PInf
  else if Qle_bool q (- overflow_bound) then NInf
  else Fin q.

(** The same for a result of [num]. *)
Definition in_range (a : num) : num :=
  match a with
  | Fin q => to_double q
  | _ => a
  end.

(** [a === b]. *)
Definition strict_eq (a b : num) : bool :=
  match a, b with
  | Fin x, Fin y => Qeq_bool x y
  | PInf, PInf | NInf, NInf => true
  | _, _ => false
  end.

Definition _speed (A B : Action) (smax : Q) : num :=
  if strict_eq (to_double (a_at B - a_at A)) (Fin 0) then Fin 0
  else
    let v := in_range (div (abs (to_double (a_pos B - a_pos A)))
                           (to_double (a_at B - a_at A))) in
    in_range (div v (Fin smax)).

Definition speed (A B : Action) (smax : Q) : num :=
  max (Fin 0) (min (_speed A B smax) (Fin 1)).

(** ** Export document *)

(** The values [dumpFunscript] hands to [JSON.stringify]. *)
Inductive json : Type :=
| JNum (n : Q)
| JStr (s : string)
| JBool (b : bool)
| JArr (items : list json)
| JObj (fields : list (string * json)).

Definition metadata (duration : Q) : json :=
  JObj [ ("creator", JStr "PythonDancerJS");
         ("description", JStr EmptyString);
         ("duration", JNum duration);
         ("license", JStr "None");
         ("notes", JStr EmptyString);
         ("performers", JArr []);
         ("script_url", JStr EmptyString);
         ("tags", JArr []);
         ("title", JStr EmptyString);
         ("type", JStr "basic");
         ("video_url", JStr EmptyString) ]%string.

Definition document (acts : list json) (duration : Q) : json :=
  JObj [ ("actions", JArr acts);
         ("inverted", JBool false);
         ("metadata", metadata duration);
         ("range", JNum 100);
         ("version", JStr "1.0") ]%string.

(** [{at: Math.round(action.at * 1000), pos: Math.round(action.pos)}] *)
Definition export_action (a : Action) : Action :=
  {| a_at := Math_round (a_at a * 1000); a_pos := Math_round (a_pos a) |}.

Definition json_of_action (a : Action) : json :=
  JObj [ ("at", JNum (a_at a)); ("pos", JNum (a_pos a)) ]%string.

Section ExportDocument.

(** The built-in [JSON.stringify(value, null, indent)]. *)
Variable JSON_stringify : json -> nat -> string.

(** [data] is [None] for a null or undefined argument. *)
Definition dumpFunscript (data : option (list Action)) : string :=
  match data with
  | None | Some [] => JSON_stringify (document [] 0) 4
  | Some data =>
      let acts := map export_action data in
      let duration :=
        if (0 <? length acts)%nat
        then default 0 (a_at <$> acts !! (length acts - 1)%nat)
        else 0 in
      JSON_stringify (document (map json_of_action acts) duration) 4
  end.

End ExportDocument.

(** ** AutoTuner *)

(** [f(l[0], l[1]), f(l[1], l[2]), ...]: the loops
    [for (i = 0; i < result.length - 1; i++) xs.push(f(result[i], result[i + 1]))]. *)
Fixpoint consecutive {A B : Type} (f : A -> A -> B) (l : list A) : list B :=
  match l with
  | x :: ((y :: _) as tl) => f x y :: consecutive f tl
  | _ => []
  end.

Definition Qlen {A : Type} (l : list A) : Q := inject_Z (Z.of_nat (length l)).

Section AutoTuner.

(** The third-party minimiser [nelderMead(f, [x0])] of package [fmin],
    for a problem of one variable: the vectors [[x]] it passes to [f] and
    the vector [result.x] it returns are identified with their only
    component.  [None] is a thrown exception, for the objective as for
    the minimiser. *)
Variable nelderMead : (Q -> option num) -> Q -> option Q.

Section Objectives.

Variable data : AudioFeatures.
Variables tpi target_speed v2above : Q.



Variable pres : Q.


Definition cemeanv2 (energy_multiplier : Q) : option num :=
  if Qltb energy_multiplier 0 then Some PInf
  else
    result ← create_actions data energy_multiplier pres 0 0 0;
    if (length result <? 2)%nat then Some PInf
    else
      let speeds := consecutive (fun a b => speed a b 400) result in
      if (length speeds =? 0)%nat then Some PInf
      else
        let aboveTarget :=
          Qlen (List.filter (fun s => ltb (Fin target_speed) s) speeds) in
        let percentageAboveTarget := div (Fin aboveTarget) (Fin (Qlen speeds)) in
        Some (abs (sub percentageAboveTarget (Fin v2above))).



End Objectives.



End AutoTuner.

(** ** FeatureExtractor: segmentation *)

(** The mutable locals [splits] and [last] of the segmentation loop. *)
Record SplitState : Type := mkSplit { splits : list Z; last : nat }.

(** The loop [for (k = 0; k < frames.length; k++)]; [frames] is the part
    of the array from index [k] on. *)
Fixpoint splits_loop (beats : list Q) (frames : list Q) (k : Z)
    (st : SplitState) : SplitState :=
  match frames with
  | [] => st
  | frame :: rest =>
      match beats !! last st with
      | None => st (* last >= beats.length: break *)
      | Some beat =>
          if Qltb beat frame then
            let splits' :=
              if (0 <? last st)%nat then splits st ++ [k] else splits st in
            splits_loop beats rest (k + 1) {| splits := splits'; last := S (last st) |}
          else splits_loop beats rest (k + 1) st
      end
  end.

Definition compute_splits (frames beats : list Q) : list Z :=
  splits (splits_loop beats frames 0 {| splits := [0%Z]; last := 0 |}) ++ [(-1)%Z].


(** The pairs [(start, end)] the aggregation loop walks, [-1] resolved to
    the length of the truncated arrays. *)
Definition segment_bounds (splits : list Z) (len : nat) : list (Z * Z) :=
  consecutive
    (fun start e => (start, if (e =? -1)%Z then Z.of_nat len else e)) splits.


(** ** The synthesizer on the object store

    [create_actions] receives a reference to the caller's object and works
    on [{ ...data }], a copy that shares the arrays [beats], [pitch] and
    [energy] with it.  This second embedding keeps the store explicit:
    every object or array literal allocates, every property assignment and
    every [push] is a store update. *)

Module Store.

Abbreviation loc := positive.

(** A property value: a number, a reference to an array, or [undefined]. *)
Inductive val : Type :=
| VNum (q : Q)
| VRef (l : loc)
| VUndef.

Inductive cell : Type :=
| CObj (props : gmap string val)
| CArr (elems : list Q)
| CActs (acts : list Action).

Abbreviation heap := (gmap loc cell).

(** State and exceptions: [None] is a thrown [TypeError]. *)
Definition M (A : Type) : Type := heap -> option (A * heap).

#[export] Instance M_ret : MRet M := fun A a h => Some (a, h).

#[export] Instance M_bind : MBind M := fun A B f m h =>
  match m h with
  | Some (a, h') => f a h'
  | None => None
  end.

Definition throw {A : Type} : M A := fun _ => None.

Definition lift {A : Type} (o : option A) : M A :=
  match o with
  | Some a => mret a
  | None => throw
  end.

Definition alloc (c : cell) : M loc := fun h =>
  let l := fresh (dom h) in Some (l, <[l := c]> h).

(** [!v] *)
Definition falsy (v : val) : bool :=
  match v with
  | VUndef => true
  | VNum q => Qeq_bool q 0
  | VRef _ => false
  end.

(** [o.k] *)
Definition get_prop (o : loc) (k : string) : M val := fun h =>
  match h !! o with
  | Some (CObj props) => Some (default VUndef (props !! k), h)
  | _ => None
  end.

(** [o.k = v] *)
Definition set_prop (o : loc) (k : string) (v : val) : M unit := fun h =>
  match h !! o with
  | Some (CObj props) => Some (tt, <[o := CObj (<[k := v]> props)]> h)
  | _ => None
  end.

(** [{ ...o }] *)
Definition spread (o : loc) : M loc := fun h =>
  match h !! o with
  | Some (CObj props) => alloc (CObj props) h
  | _ => None
  end.

(** The elements of the array a value refers to. *)
Definition read_arr (v : val) : M (list Q) := fun h =>
  match v with
  | VRef l => match h !! l with
              | Some (CArr xs) => Some (xs, h)
              | _ => None
              end
  | _ => None
  end.

(** [actions.push(...new_acts)] *)
Definition push (actions : loc) (new_acts : list Action) : M unit := fun h =>
  match h !! actions with
  | Some (CActs acts) => Some (tt, <[actions := CActs (acts ++ new_acts)]> h)
  | _ => None
  end.

(** [normalize(data)]: the result is always a new array. *)
Definition normalize_h (data : val) : M val :=
  if falsy data then
    l ← alloc (CArr []);
    mret (VRef l)
  else
    xs ← read_arr data;
    l ← alloc (CArr (normalize (Some xs)));
    mret (VRef l).

(** [o.k] read as an array: its elements. *)
Definition get_arr (o : loc) (k : string) : M (list Q) :=
  v ← get_prop o k;
  read_arr v.

Fixpoint barrier_loop_h (actions data : loc) (overflow : Q) (idx : list nat)
    (last_at last_pos : Q) : M unit :=
  match idx with
  | [] => mret tt
  | i :: rest =>
      energy_to_pos ← get_arr data "energy_to_pos";
      let unoffset_pos := default 0 (energy_to_pos !! i) in
      beats ← get_arr data "beats";
      let at_ := default 0 (beats !! i) in
      offsets ← get_arr data "offsets";
      let offset := default 0 (offsets !! i) in
      (* up *)
      let intermediate_at := (at_ + last_at) / 2 in
      let pos := unoffset_pos + offset in
      peak ← lift (peaks_at overflow);
      push actions (peak pos intermediate_at last_pos last_at);;
      let last_at := intermediate_at in
      let last_pos := pos in
      (* down *)
      let pos := unoffset_pos * -1 + offset in
      peak ← lift (peaks_at overflow);
      push actions (peak pos at_ last_pos last_at);;
      barrier_loop_h actions data overflow rest at_ pos
  end.

Definition create_actions_barrier_h (data : loc) (start_time overflow : Q)
    : M loc :=
  let last_at := start_time in
  let last_pos := 50 in
  actions ← alloc (CActs []);
  energy_to_pos ← get_prop data "energy_to_pos";
  beats ← get_prop data "beats";
  offsets ← get_prop data "offsets";
  if falsy energy_to_pos || falsy beats || falsy offsets then mret actions
  else
    e2p ← get_arr data "energy_to_pos";
    bs ← get_arr data "beats";
    os ← get_arr data "offsets";
    let num_frames := Nat.min (Nat.min (length e2p) (length bs)) (length os) in
    barrier_loop_h actions data overflow (seq 0 num_frames) last_at last_pos;;
    mret actions.

Definition create_actions_h (data : loc)
    (energy_multiplier pitch_range overflow amplitude_centering center_offset : Q)
    : M loc :=
  pitch ← get_prop data "pitch";
  energy ← get_prop data "energy";
  if falsy pitch || falsy energy then alloc (CActs [])
  else
    processedData ← spread data;
    normalized_pitch ← normalize_h pitch;
    normalized_energy ← normalize_h energy;
    let pitch_bias := (100 - pitch_range) / 2 in
    np ← read_arr normalized_pitch;
    ne ← read_arr normalized_energy;
    sliced ← alloc (CArr (take (length ne) np));
    sl ← read_arr (VRef sliced);
    offsets ← alloc (CArr (imap (fun i pitch =>
                 pitch * pitch_range + pitch_bias
                 + amplitude_centering * default 0 (ne !! i)
                 + center_offset) sl));
    set_prop processedData "offsets" (VRef offsets);;
    energy_to_pos ← alloc (CArr (map (fun e => e * energy_multiplier * 50) ne));
    set_prop processedData "energy_to_pos" (VRef energy_to_pos);;
    create_actions_barrier_h processedData overflow 0.

(** The caller's view of its object: the record the pure embedding
    works on, read off the store. *)
Definition field_at (h : heap) (props : gmap string val) (k : string)
    : option (list Q) :=
  match props !! k with
  | Some (VRef l) => match h !! l with
                     | Some (CArr xs) => Some xs
                     | _ => None
                     end
  | _ => None
  end.

Definition features_at (h : heap) (d : loc) : option AudioFeatures :=
  match h !! d with
  | Some (CObj props) =>
      Some {| d_at := match props !! "at"%string with
                      | Some (VNum q) => q
                      | _ => 0
                      end;
              d_beats := field_at h props "beats";
              d_pitch := field_at h props "pitch";
              d_energy := field_at h props "energy" |}
  | _ => None
  end.

(** A property is well formed when it is missing or refers to an array
    of numbers. *)
Definition wf_prop (h : heap) (props : gmap string val) (k : string) : Prop :=
  match props !! k with
  | None | Some VUndef => True
  | Some (VRef l) => exists xs, h !! l = Some (CArr xs)
  | Some (VNum _) => False
  end.

Definition wf_features (h : heap) (d : loc) : Prop :=
  exists props,
    h !! d = Some (CObj props)
    /\ wf_prop h props "beats" /\ wf_prop h props "pitch"
    /\ wf_prop h props "energy".

End Store.

(** ** FeatureExtractor: frames, pitch and beats

    [hopLength] and [frameLength] are array lengths and loop steps:
    naturals.  The two window loops advance by [hopLength] and have no
    other exit, so they are run with fuel: [None] is the fuel spent. *)

Section RMS.

(** The built-in [Math.sqrt]. *)
Variable Math_sqrt : num -> num.

(** [sumSq] after the inner loop of [getRMS]. *)
Definition sum_squares (channelData : list Q) (i frameLength : nat) : Q :=
  fold_left
    (fun sumSq j =>
       sumSq + default 0 (channelData !! (i + j)%nat)
               * default 0 (channelData !! (i + j)%nat))
    (seq 0 frameLength) 0.

(** The loop [for (i = 0; i <= channelData.length - frameLength; i += hopLength)]
    from the index [i] on. *)
Fixpoint getRMS_loop (fuel : nat) (channelData : list Q)
    (frameLength hopLength i : nat) : option (list num) :=
  match fuel with
  | O => None
  | S fuel' =>
      if (i + frameLength <=? length channelData)%nat then
        let sumSq := sum_squares channelData i frameLength in
        let rms := Math_sqrt (div (Fin sumSq) (Fin (inject_Z (Z.of_nat frameLength)))) in
        rest ← getRMS_loop fuel' channelData frameLength hopLength (i + hopLength);
        Some (rms :: rest)
      else Some []
  end.

Definition getRMS (fuel : nat) (channelData : list Q)
    (frameLength hopLength : nat) : option (list num) :=
  getRMS_loop fuel channelData frameLength hopLength 0.

End RMS.

(** [autoCorr[lag]] after the two nested loops of [getPitch]. *)
Definition autoCorr (frame : list Q) (hopLength lag : nat) : Q :=
  fold_left
    (fun acc j =>
       acc + default 0 (frame !! j) * default 0 (frame !! (j + lag)%nat))
    (seq 0 (hopLength - lag)) 0.

(** The locals [peakValue] and [peakLag] of the peak search. *)
Record PeakState : Type := mkPeak { peakValue : Q; peakLag : Z }.

(** The lags [startLag, startLag + 1, ..., endLag - 1]. *)
Definition lag_range (startLag endLag : Z) : list Z :=
  map (fun k => (startLag + Z.of_nat k)%Z) (seq 0 (Z.to_nat (endLag - startLag))).

Definition peak_step (frame : list Q) (hopLength : nat) (st : PeakState)
    (lag : Z) : PeakState :=
  if Qltb (peakValue st) (autoCorr frame hopLength (Z.to_nat lag))
  then {| peakValue := autoCorr frame hopLength (Z.to_nat lag); peakLag := lag |}
  else st.

(** The value pushed for one frame. *)
Definition pitch_of_frame (frame : list Q) (sr : Q) (hopLength : nat) : Q :=
  let minFreq := 50 in
  let maxFreq := 1000 in
  let minPeriod := sr / maxFreq in
  let maxPeriod := sr / minFreq in
  let bestPitch := 1 # 100 in
  let startLag := Z.max 2 (Qfloor minPeriod) in
  let endLag := Z.min (Z.of_nat hopLength - 1) (Qceiling maxPeriod) in
  let st := fold_left (peak_step frame hopLength) (lag_range startLag endLag)
                      {| peakValue := 0; peakLag := 0 |} in
  let bestPitch :=
    if (0 <? peakLag st)%Z then sr / inject_Z (peakLag st) else bestPitch in
  Qmax (1 # 100) bestPitch.

(** The loop [for (i = 0; i <= channelData.length - hopLength; i += hopLength)]
    from the index [i] on. *)
Fixpoint getPitch_loop (fuel : nat) (channelData : list Q) (sr : Q)
    (hopLength i : nat) : option (list Q) :=
  match fuel with
  | O => None
  | S fuel' =>
      if (i + hopLength <=? length channelData)%nat then
        let frame := take hopLength (drop i channelData) in
        if (length frame <? hopLength)%nat then Some [] (* break *)
        else
          rest ← getPitch_loop fuel' channelData sr hopLength (i + hopLength);
          Some (pitch_of_frame frame sr hopLength :: rest)
      else Some []
  end.

Definition getPitch (fuel : nat) (channelData : list Q) (sr : Q)
    (hopLength : nat) : option (list Q) :=
  getPitch_loop fuel channelData sr hopLength 0.

Definition framesToTime (numFrames : nat) (sr hopLength : Q) : list num :=
  map (fun i => div (Fin (inject_Z (Z.of_nat i) * hopLength)) (Fin sr))
      (seq 0 numFrames).

(** [maxRMS] after the first loop of [getBeats]. *)
Definition maxRMS_of (rmsValues : list Q) : Q :=
  match rmsValues with
  | [] => 0
  | first :: rest =>
      fold_left (fun maxRMS v => if Qltb maxRMS v then v else maxRMS) rest first
  end.

(** The locals [beats] and [lastPeakTime] of the second loop. *)
Record BeatState : Type := mkBeats { beats_found : list num; lastPeakTime : num }.

Definition beat_step (rmsValues : list Q) (frameTimes : list num)
    (threshold : Q) (st : BeatState) (i : nat) : BeatState :=
  let minBeatInterval := 3 # 10 in
  let here := default 0 (rmsValues !! i) in
  if Qltb threshold here
     && Qltb (default 0 (rmsValues !! (i - 1)%nat)) here
     && Qltb (default 0 (rmsValues !! (i + 1)%nat)) here
  then
    let currentTime := default NaN (frameTimes !! i) in
    if ltb (Fin minBeatInterval) (sub currentTime (lastPeakTime st))
    then {| beats_found := beats_found st ++ [currentTime];
            lastPeakTime := currentTime |}
    else st
  else st.

Definition getBeats (rmsValues : list Q) (sr hopLength audioDuration : Q)
    : list num :=
  let frameTimes := framesToTime (length rmsValues) sr hopLength in
  let maxRMS := maxRMS_of rmsValues in
  let threshold := (2 # 10) * maxRMS in
  beats_found
    (fold_left (beat_step rmsValues frameTimes threshold)
               (seq 1 (length rmsValues - 2))
               {| beats_found := []; lastPeakTime := NInf |}).

(** ** Heatmap renderer

    [render_heatmap_js] synthesizes the actions and draws one coloured
    line per pair of consecutive actions.  The canvas is modelled by the
    list of the strokes drawn on its background, in drawing order. *)

(** [a <= b] and [a >= b]; false as soon as one side is NaN. *)
Definition num_le (a b : num) : bool :=
  match a, b with
  | NaN, _ | _, NaN => false
  | Fin x, Fin y => Qle_bool x y
  | NInf, _ => true
  | _, PInf => true
  | _, _ => false
  end.

Definition num_ge (a b : num) : bool := num_le b a.

(** [a * b]; an infinity times zero is NaN. *)
Definition num_mul (a b : num) : num :=
  match a, b with
  | NaN, _ | _, NaN => NaN
  | Fin x, Fin y => Fin (x * y)
  | Fin x, PInf | PInf, Fin x =>
      if is_zero x then NaN else if Qltb 0 x then PInf else NInf
  | Fin x, NInf | NInf, Fin x =>
      if is_zero x then NaN else if Qltb 0 x then NInf else PInf
  | PInf, PInf | NInf, NInf => PInf
  | PInf, NInf | NInf, PInf => NInf
  end.

(** [Math.round] leaves a value that is not finite as it is. *)
Definition num_round (a : num) : num :=
  match a with
  | Fin x => Fin (Math_round x)
  | _ => a
  end.

(** [xs[i]] of an array of numbers used in arithmetic: [undefined] out of
    range, which every operator reads as NaN. *)
Definition num_at (xs : list Q) (i : nat) : num :=
  match xs !! i with
  | Some x => Fin x
  | None => NaN
  end.

Module ColorMap.

Definition r : list Q := [255; 0; 255; 255].
Definition g : list Q := [255; 128; 165; 0].
Definition b : list Q := [255; 0; 0; 0].

Definition steps : list Q := [0; 33 # 100; 66 # 100; 1].

(** The locals [c1_idx], [c2_idx] and [t]. *)
Record Blend : Type := mkBlend { c1_idx : nat; c2_idx : nat; t : num }.

(** The [for] loop of the last branch: the first interval of [steps] that
    holds [value] sets the three locals and leaves the loop; when none
    does they keep their initial values. *)
Fixpoint search (value : num) (idx : list nat) : Blend :=
  match idx with
  | [] => mkBlend 0 0 (Fin 0)
  | i :: later =>
      if num_ge value (num_at steps i) && num_le value (num_at steps (i + 1))
      then mkBlend i (i + 1)
             (div (sub value (num_at steps i))
                  (sub (num_at steps (i + 1)) (num_at steps i)))
      else search value later
  end.

Definition blend (value : num) : Blend :=
  if num_le value (num_at steps 0) then mkBlend 0 0 (Fin 0)
  else if num_ge value (num_at steps (length steps - 1)) then
    mkBlend (length steps - 1) (length steps - 1) (Fin 1)
  else search value (seq 0 (length steps - 1)).

Definition interpolate (start end_ t_val : num) : num :=
  num_round (add start (num_mul (sub end_ start) t_val)).

(** The three numbers of the returned string [rgb(red,green,blue)]. *)
Record Colour : Type := rgb { red : num; green : num; blue : num }.

Definition colorMap (value : num) : Colour :=
  let bl := blend value in
  rgb (interpolate (num_at r (c1_idx bl)) (num_at r (c2_idx bl)) (t bl))
      (interpolate (num_at g (c1_idx bl)) (num_at g (c2_idx bl)) (t bl))
      (interpolate (num_at b (c1_idx bl)) (num_at b (c2_idx bl)) (t bl)).

End ColorMap.

(** One [beginPath(); moveTo(x1, y1); lineTo(x2, y2); stroke()] with its
    [strokeStyle]. *)
Record Stroke : Type := mkStroke {
  strokeStyle : ColorMap.Colour;
  x1 : Q; y1 : Q; x2 : Q; y2 : Q
}.

(** The loop [speeds.push(speed(result[i], result[i + 1]))] over the
    consecutive pairs; the renderer and the tuner's objectives leave
    [smax] at its default 400. *)
Definition pair_speeds (smax : Q) (result : list Action) : list num :=
  consecutive (fun a b => speed a b smax) result.

(** [speeds.map(s => Math.min(1, Math.max(0, s)))]. *)
Definition normalizedSpeeds (speeds : list num) : list num :=
  map (fun s => min (Fin 1) (max (Fin 0) s)) speeds.

(** [data.at || (result[result.length - 1]?.at + 1) || 1], then
    [duration > 0 ? duration : 1]. *)
Definition effectiveDuration (data_at : Q) (result : list Action) : Q :=
  let duration :=
    if negb (Qeq_bool data_at 0) then data_at
    else
      match result !! (length result - 1)%nat with
      | Some final =>
          if negb (Qeq_bool (a_at final + 1) 0) then a_at final + 1 else 1
      | None => 1
      end in
  if Qltb 0 duration then duration else 1.

(** The body of the drawing loop at index [i]. *)
Definition stroke_at (result : list Action) (normalizedSpeeds : list num)
    (duration width height : Q) (i : nat) : option Stroke :=
  A ← result !! i;
  B ← result !! (i + 1)%nat;
  s ← normalizedSpeeds !! i;
  Some {| strokeStyle := ColorMap.colorMap s;
          x1 := a_at A / duration * width;
          y1 := height - a_pos A / 100 * height;
          x2 := a_at B / duration * width;
          y2 := height - a_pos B / 100 * height |}.

(** The strokes drawn for [result]; none when it has fewer than two
    actions. *)
Definition draw (data_at : Q) (result : list Action) (width height : Q)
    : list Stroke :=
  if (length result <? 2)%nat then []
  else
    let speeds := pair_speeds 400 result in
    omap (stroke_at result (normalizedSpeeds speeds)
                    (effectiveDuration data_at result) width height)
         (seq 0 (length result - 1)).

(** The parameters are numbers, which [parseFloat] returns as they are. *)
Definition render_heatmap_js (data : AudioFeatures)
    (energy_multiplier pitch_range overflow width height
     amplitude_centering center_offset : Q) : option (list Stroke) :=
  result ← create_actions data energy_multiplier pitch_range overflow
                          amplitude_centering center_offset;
  Some (draw (d_at data) result width height).

(** * Vocabulary of the properties *)

(** ** Equality of results

    Two rationals are the same number when they are [==]; actions, lists
    and optional results are compared componentwise. *)

#[local] Instance Q_equiv : Equiv Q := Qeq.

#[local] Instance Action_equiv : Equiv Action := fun a b =>
  a_at a == a_at b /\ a_pos a == a_pos b.

(** ** Positions and times *)

Definition out_of_bounds (x : Q) : bool := Qltb x 0 || Qltb 100 x.

Definition is_integer (q : Q) : Prop := exists z : Z, q = inject_Z z.

(** Consecutive actions never go back in time. *)
Fixpoint at_nondecreasing (l : list Action) : Prop :=
  match l with
  | a :: ((b :: _) as tl) => a_at a <= a_at b /\ at_nondecreasing tl
  | _ => True
  end.

(** ** The synthesizer's loop with one resolver *)

(** The first entry of [peaks]. *)
Definition crop : peak_fn := fun pos at_ _ _ => default_peak pos at_.

(** The loop of [create_actions_barrier] run with the resolver [peak]. *)
Definition barrier_fold (peak : peak_fn) (energy_to_pos beats offsets : list Q)
    (idx : list nat) (st : BarrierState) : BarrierState :=
  fold_left
    (fun st i =>
       barrier_step peak st (default 0 (energy_to_pos !! i))
                    (default 0 (beats !! i)) (default 0 (offsets !! i)))
    idx st.

(** ** Ordered times *)

(** The actions of [l] are emitted in order, between [la] and [at_]. *)
Definition within (la at_ : Q) (l : list Action) : Prop :=
  Forall (fun a => la <= a_at a <= at_) l /\ at_nondecreasing l.

(** The beat times do not decrease and none is earlier than [t]. *)
Fixpoint ascending_from (t : Q) (beats : list Q) : Prop :=
  match beats with
  | [] => True
  | b :: later => t <= b /\ ascending_from b later
  end.

(** What the loop maintains: the emitted times are ordered and none is
    later than [last_at]. *)
Definition ordered_so_far (st : BarrierState) : Prop :=
  at_nondecreasing (actions st)
  /\ Forall (fun a => a_at a <= last_at st) (actions st).

(** ** Segmentation in the spec's words *)

(** Walking frame times and beat times in parallel, the index [k] of each
    frame whose time exceeds the next unconsumed beat time; that frame
    consumes the beat. *)
Fixpoint crossings (frames beats : list Q) (k : Z) : list Z :=
  match frames, beats with
  | frame :: rest, beat :: later =>
      if Qltb beat frame then k :: crossings rest later (k + 1)
      else crossings rest beats (k + 1)
  | _, _ => []
  end.

(** The locals of the segmentation loop before its first iteration. *)
Definition initial_split : SplitState := {| splits := [0%Z]; last := 0 |}.

(** ** Segments of an input *)


(** ** Frames on the store *)

(** [frames h0 m P]: run from any store that extends [h0], the
    computation [m] leaves every cell of [h0] as it is, and its result
    satisfies [P]. *)
Definition frames {A : Type} (h0 : gmap positive Store.cell) (m : Store.M A)
    (P : A -> Prop) : Prop :=
  forall h a h', h0 ⊆ h -> m h = Some (a, h') -> h0 ⊆ h' /\ P a.

(** The three arrays of the object at [pd], as the loop reads them. *)
Definition loop_arrays (h : gmap positive Store.cell) (pd : positive)
    (e2p bs os : list Q) : Prop :=
  exists props le lb lo,
    h !! pd = Some (Store.CObj props)
    /\ props !! "energy_to_pos"%string = Some (Store.VRef le)
    /\ h !! le = Some (Store.CArr e2p)
    /\ props !! "beats"%string = Some (Store.VRef lb)
    /\ h !! lb = Some (Store.CArr bs)
    /\ props !! "offsets"%string = Some (Store.VRef lo)
    /\ h !! lo = Some (Store.CArr os).

(** ** Inputs of the evaluations *)

(** Two segments, with beats at 1 s and 2 s. *)
Definition two_beats : AudioFeatures :=
  {| d_at := 3; d_beats := Some [1; 2];
     d_pitch := Some [0; 1]; d_energy := Some [1; 1] |}.

(** One segment, with its beat at 0.5 s. *)
Definition early_beat : AudioFeatures :=
  {| d_at := 2; d_beats := Some [1 # 2];
     d_pitch := Some [1]; d_energy := Some [1] |}.

(** One segment, with its beat at 2 s. *)
Definition late_beat : AudioFeatures :=
  {| d_at := 3; d_beats := Some [2];
     d_pitch := Some [1]; d_energy := Some [1] |}.



(** A caller's store: the features object at location 1 and its three
    arrays. *)
Definition caller_props : gmap string Store.val :=
  <["at"%string := Store.VNum 3]>
    (<["beats"%string := Store.VRef 2]>
       (<["pitch"%string := Store.VRef 3]>
          (<["energy"%string := Store.VRef 4]> ∅))).

Definition caller_store : gmap positive Store.cell :=
  <[1%positive := Store.CObj caller_props]>
    (<[2%positive := Store.CArr [1; 2]]>
       (<[3%positive := Store.CArr [0; 1]]>
          (<[4%positive := Store.CArr [1; 1]]> ∅))).

(** ** Synthesis, extraction and rendering *)

(** The Crop synthesis written by recursion on the segments: for each
    segment the "up" action halfway from the previous time and the "down"
    action at the beat. *)
Fixpoint crop_actions (prev : Q) (e2p beats offs : list Q) : list Action :=
  match e2p, beats, offs with
  | u :: e2p', b :: beats', o :: offs' =>
      {| a_at := (b + prev) / 2; a_pos := Qmin (Qmax 0 (u + o)) 100 |}
      :: {| a_at := b; a_pos := Qmin (Qmax 0 (u * -1 + o)) 100 |}
      :: crop_actions b e2p' beats' offs'
  | _, _, _ => []
  end.

(** The number of segments the call synthesizes. *)
Definition segments_used (data : AudioFeatures) : nat :=
  match d_beats data, d_pitch data, d_energy data with
  | Some beats, Some pitch, Some energy =>
      Nat.min (Nat.min (length pitch) (length energy)) (length beats)
  | _, _, _ => 0%nat
  end.


(** The times of the second action of every segment. *)
Fixpoint down_times (l : list Action) : list Q :=
  match l with
  | _ :: down :: tl => a_at down :: down_times tl
  | _ => []
  end.

(** Numbers that are the same number. *)
#[local] Instance num_equiv : Equiv num := fun a b =>
  match a, b with
  | Fin x, Fin y => x == y
  | PInf, PInf | NInf, NInf | NaN, NaN => True
  | _, _ => False
  end.

(** The number of windows of length [frameLength] that start at a multiple
    of [hopLength], from the index [i] on. *)
Definition windows_from (len frameLength hopLength i : nat) : nat :=
  if (i + frameLength <=? len)%nat
  then ((len - frameLength - i) / hopLength + 1)%nat
  else 0%nat.

(** Five samples. *)
Definition short_signal : list Q := [1; 0; -1; 0; 1].

(** The time of frame [i] for a sample rate that is not zero. *)
Definition frame_time (sr hopLength : Q) (i : nat) : Q :=
  inject_Z (Z.of_nat i) * hopLength / sr.

(** The frame [i] is a strict local maximum of the energy, above the
    threshold. *)
Definition is_peak (rmsValues : list Q) (threshold : Q) (i : nat) : Prop :=
  threshold < default 0 (rmsValues !! i)
  /\ default 0 (rmsValues !! (i - 1)%nat) < default 0 (rmsValues !! i)
  /\ default 0 (rmsValues !! (i + 1)%nat) < default 0 (rmsValues !! i).

(** Each time is more than [gap] after the one before. *)
Fixpoint spaced (gap : Q) (times : list Q) : Prop :=
  match times with
  | a :: ((b :: _) as later) => gap < b - a /\ spaced gap later
  | _ => True
  end.

(** [lastPeakTime] for the beats found so far. *)
Definition last_time (times : list Q) : num :=
  match list.last times with
  | Some t => Fin t
  | None => NInf
  end.

(** What the beat loop maintains before it looks at frame [m]. *)
Definition beats_so_far (rmsValues : list Q) (sr hopLength threshold : Q)
    (st : BeatState) (times : list Q) (m : nat) : Prop :=
  beats_found st = map Fin times
  /\ lastPeakTime st = last_time times
  /\ spaced (3 # 10) times
  /\ Forall (fun t => exists i, (1 <= i < m)%nat
                                /\ is_peak rmsValues threshold i
                                /\ t = frame_time sr hopLength i) times
  /\ (forall j, (1 <= j < m)%nat -> is_peak rmsValues threshold j ->
      exists t, t ∈ times
                /\ frame_time sr hopLength j - (3 # 10) <= t <= frame_time sr hopLength j).



(** A colour channel: an integer of [0,255]. *)
Definition is_channel (c : num) : Prop :=
  exists z : Z, c = Fin (inject_Z z) /\ (0 <= z <= 255)%Z.

Definition is_colour (c : ColorMap.Colour) : Prop :=
  is_channel (ColorMap.red c) /\ is_channel (ColorMap.green c)
  /\ is_channel (ColorMap.blue c).

(** Every stroke starts where the stroke before it ended. *)
Fixpoint joined (l : list Stroke) : Prop :=
  match l with
  | s :: ((s' :: _) as later) => x2 s = x1 s' /\ y2 s = y1 s' /\ joined later
  | _ => True
  end.

(** The values of [data] differ from one another by less than the range
    of a double: no difference of two of them is an infinity. *)
Definition range_fits (data : list Q) : Prop :=
  Forall (fun a => Forall (fun b => a - b < overflow_bound) data) data.

(** A value that the clamp of [speed] sends to 0. *)
Definition not_positive (x : num) : Prop :=
  x = NInf \/ exists q, x = Fin q /\ q <= 0.

(** * Properties *)

(** Closes an equation between two closed results. *)
Ltac same_result :=
  repeat first
    [ reflexivity
    | apply Some_equiv_eq; eexists; split; [reflexivity |]
    | constructor ].

(** ** Comparison lemmas *)

Lemma Qltb_lt (x y : Q) : Qltb x y = true <-> x < y.
Proof.
  unfold Qltb. rewrite negb_true_iff. split.
  - intros H. apply Qnot_le_lt. intros Hle.
    apply Qle_bool_iff in Hle. congruence.
  - intros H. destruct (Qle_bool y x) eqn:E; [| reflexivity].
    apply Qle_bool_iff in E. lra.
Qed.

Lemma Qltb_ge (x y : Q) : Qltb x y = false <-> y <= x.
Proof.
  unfold Qltb. rewrite negb_false_iff. apply Qle_bool_iff.
Qed.

Lemma Qeq_bool_false (x y : Q) : Qeq_bool x y = false <-> ~ x == y.
Proof.
  split.
  - intros H Heq. apply Qeq_bool_iff in Heq. congruence.
  - intros H. destruct (Qeq_bool x y) eqn:E; [| reflexivity].
    apply Qeq_bool_iff in E. contradiction.
Qed.

(** Case analysis on a comparison, with the order fact in the context. *)
Ltac case_Qltb x y :=
  let E := fresh "E" in
  destruct (Qltb x y) eqn:E;
  [ apply Qltb_lt in E | apply Qltb_ge in E ].

Lemma half_is_mult (x : Q) : x / 2 == x * (1 # 2).
Proof. unfold Qdiv. reflexivity. Qed.

(** ** OverflowResolver *)

Lemma out_of_bounds_false (x : Q) : out_of_bounds x = false <-> 0 <= x <= 100.
Proof.
  unfold out_of_bounds. rewrite orb_false_iff, !Qltb_ge. tauto.
Qed.

(** Crop emits one action, at the requested time, whose position is the
    target clamped to [0,100]. *)
Lemma default_peak_clamps (pos at_ : Q) :
  exists a, default_peak pos at_ = [a] /\ a_at a = at_
            /\ 0 <= a_pos a <= 100
            /\ (0 <= pos <= 100 -> a_pos a == pos).
Proof.
  eexists. split; [reflexivity |]. cbn. split; [reflexivity |]. split.
  - split.
    + apply Q.min_glb; [apply Q.le_max_l | lra].
    + apply Q.le_min_r.
  - intros [H0 H100]. rewrite Q.max_r by exact H0. apply Q.min_l. exact H100.
Qed.

Lemma action_pos_integer (p a : Q) : is_integer (a_pos (action p a)).
Proof. eexists. reflexivity. Qed.

Lemma create_peak_bounce_integers (pos at_ lp la : Q) :
  Forall (fun a => is_integer (a_pos a)) (create_peak_bounce pos at_ lp la).
Proof.
  unfold create_peak_bounce.
  destruct (Qltb lp 0), (Qltb 100 lp), (Qltb 100 pos), (Qltb pos 0); cbn;
    repeat constructor; apply action_pos_integer.
Qed.

Lemma create_peak_fold_integers (pos at_ lp la : Q) :
  Forall (fun a => is_integer (a_pos a)) (create_peak_fold pos at_ lp la).
Proof.
  unfold create_peak_fold.
  destruct (Qltb lp 0), (Qltb 100 lp), (Qltb pos 0), (Qltb 100 pos); cbn;
    repeat constructor; apply action_pos_integer.
Qed.

(** C4, evaluated at the target 50.2: the Crop resolver emits the single
    action [{at: 1, pos: 50.2}].  Its position is the clamped target
    itself, not [round(clamp(pos, 0, 100)) = 50], and it is no integer:
    [default_peak] is the one resolver that does not call [Math.round]. *)
Theorem default_peak_keeps_fraction :
  exists a,
    default_peak (251 # 5) 1 = [a]
    /\ a_at a == 1 /\ a_pos a == 251 # 5
    /\ ~ a_pos a == Math_round (Qmin (Qmax 0 (251 # 5)) 100)
    /\ forall z : Z, ~ a_pos a == inject_Z z.
Proof.
  eexists. split; [reflexivity |]. cbn.
  split; [reflexivity |]. split; [reflexivity |]. split.
  - intros H. vm_compute in H. discriminate.
  - intros z H.
    change (Qmin (Qmax 0 (251 # 5)) 100) with (251 # 5) in H.
    unfold Qeq in H. cbn in H. lia.
Qed.

(** C5 as stated fails: with the previous and the new target both below 0
    the Fold resolver emits three actions. *)
Lemma create_peak_fold_three_actions :
  create_peak_fold (-10) 1 (-20) 0
    ≡ [ {| a_at := 1 # 2; a_pos := -15 |};
        {| a_at := 1 # 2; a_pos := -25 |};
        {| a_at := 1; a_pos := -20 |} ]
  /\ ~ (length (create_peak_fold (-10) 1 (-20) 0) <= 2)%nat.
Proof.
  split; [same_result |]. vm_compute. lia.
Qed.

(** C5, amended: the Fold resolver emits one correction action when the
    previous target is out of bounds, then the pass-through action when the
    new target is in bounds and the folded pair otherwise: between one and
    three actions, one when both are in bounds, three exactly when both are
    out of bounds. *)
Theorem create_peak_fold_actions (pos at_ lp la : Q) :
  let int_att := (la + at_) / 2 in
  let travel := Qabs (lp - pos) / 2 in
  let correction :=
    if Qltb lp 0 then [action (lp + travel) int_att]
    else if Qltb 100 lp then [action (lp - travel) int_att] else [] in
  let resolved :=
    if Qltb pos 0 then [action (lp - travel) int_att; action lp at_]
    else if Qltb 100 pos then [action (lp + travel) int_att; action lp at_]
    else [action pos at_] in
  let n := length (create_peak_fold pos at_ lp la) in
  create_peak_fold pos at_ lp la = correction ++ resolved
  /\ (1 <= n <= 3)%nat
  /\ (n = 1%nat <-> out_of_bounds lp = false /\ out_of_bounds pos = false)
  /\ (n = 3%nat <-> out_of_bounds lp = true /\ out_of_bounds pos = true).
Proof.
  unfold create_peak_fold, out_of_bounds.
  destruct (Qltb lp 0), (Qltb 100 lp), (Qltb pos 0), (Qltb 100 pos); cbn;
    (split; [reflexivity |]); (split; [lia |]);
    split; split; first [ lia | tauto | intuition discriminate ].
Qed.

(** ** SpeedEstimator *)

Lemma overflow_bound_positive : 0 < overflow_bound.
Proof. reflexivity. Qed.

Lemma to_double_finite (q : Q) :
  Qabs q < overflow_bound -> to_double q = Fin q.
Proof.
  intros H. apply Qabs_Qlt_condition in H. destruct H as [Hlo Hhi].
  unfold to_double.
  destruct (Qle_bool overflow_bound q) eqn:E1.
  { apply Qle_bool_iff in E1. lra. }
  destruct (Qle_bool q (- overflow_bound)) eqn:E2.
  { apply Qle_bool_iff in E2. lra. }
  reflexivity.
Qed.

Lemma to_double_cases (q : Q) :
  (to_double q = Fin q /\ Qabs q < overflow_bound)
  \/ (to_double q = PInf /\ overflow_bound <= q)
  \/ (to_double q = NInf /\ q <= - overflow_bound).
Proof.
  unfold to_double.
  destruct (Qle_bool overflow_bound q) eqn:E1.
  { apply Qle_bool_iff in E1. right. left. split; [reflexivity | exact E1]. }
  destruct (Qle_bool q (- overflow_bound)) eqn:E2.
  { apply Qle_bool_iff in E2. right. right. split; [reflexivity | exact E2]. }
  left. split; [reflexivity |].
  apply Qabs_Qlt_condition.
  assert (~ overflow_bound <= q) by (intros H; apply Qle_bool_iff in H; congruence).
  assert (~ q <= - overflow_bound) by (intros H'; apply Qle_bool_iff in H'; congruence).
  split; lra.
Qed.

(** The clamp of [speed] leaves NaN or a number of [0,1]. *)
Lemma clamp_not_NaN (x : num) :
  x <> NaN ->
  exists q, max (Fin 0) (min x (Fin 1)) = Fin q /\ 0 <= q <= 1.
Proof.
  intros Hx. destruct x as [v | | |]; [| | | contradiction].
  - cbn [min ltb].
    case_Qltb 1 v; cbn [max ltb].
    + exists 1. change (Qltb 0 1) with true. split; [reflexivity | lra].
    + case_Qltb 0 v.
      * exists v. split; [reflexivity | lra].
      * exists 0. split; [reflexivity | lra].
  - exists 1. split; [reflexivity | lra].
  - exists 0. split; [reflexivity | lra].
Qed.

Lemma clamp_cases (x : num) :
  max (Fin 0) (min x (Fin 1)) = NaN
  \/ exists q, max (Fin 0) (min x (Fin 1)) = Fin q /\ 0 <= q <= 1.
Proof.
  destruct x as [v | | |]; [right | right | right | left; reflexivity];
    apply clamp_not_NaN; discriminate.
Qed.

Lemma in_range_not_NaN (a : num) : a <> NaN -> in_range a <> NaN.
Proof.
  destruct a as [q | | |]; cbn [in_range]; try (intros; assumption || discriminate).
  intros _. destruct (to_double_cases q) as [[E _] | [[E _] | [E _]]];
    rewrite E; discriminate.
Qed.

(** A quotient by a finite divisor that is not zero is NaN only when the
    dividend is. *)
Lemma div_finite_not_NaN (a : num) (y : Q) :
  a <> NaN -> ~ y == 0 -> div a (Fin y) <> NaN.
Proof.
  intros Ha Hy. assert (Hz : is_zero y = false) by (apply Qeq_bool_false; exact Hy).
  destruct a as [x | | |]; cbn [div]; try rewrite Hz; try discriminate.
  - destruct (Qltb y 0); discriminate.
  - destruct (Qltb y 0); discriminate.
  - contradiction.
Qed.

Lemma _speed_not_NaN (A B : Action) (smax : Q) :
  0 < smax ->
  Qabs (a_at B - a_at A) < overflow_bound
  \/ Qabs (a_pos B - a_pos A) < overflow_bound ->
  _speed A B smax <> NaN.
Proof.
  intros Hs Hfin. unfold _speed.
  destruct (strict_eq (to_double (a_at B - a_at A)) (Fin 0)) eqn:Hg; [discriminate |].
  apply in_range_not_NaN, div_finite_not_NaN; [| lra].
  apply in_range_not_NaN.
  destruct (to_double_cases (a_at B - a_at A)) as [[Et Ht] | Ht].
  - rewrite Et in *. cbn [strict_eq] in Hg. apply Qeq_bool_false in Hg.
    apply div_finite_not_NaN; [| exact Hg].
    destruct (to_double_cases (a_pos B - a_pos A)) as [[E _] | [[E _] | [E _]]];
      rewrite E; discriminate.
  - assert (Hp : Qabs (a_pos B - a_pos A) < overflow_bound).
    { destruct Hfin as [Hfin | Hfin]; [| exact Hfin].
      apply Qabs_Qlt_condition in Hfin. destruct Ht as [[_ Ht] | [_ Ht]]; lra. }
    rewrite (to_double_finite _ Hp).
    destruct Ht as [[Et _] | [Et _]]; rewrite Et; discriminate.
Qed.

(** C8, amended: for a positive [smax] and two actions of which the times
    or the positions differ by less than the range of a double, [speed] is
    a number of [0,1]; and it is exactly 0 whenever the two times are
    equal. *)
Theorem speed_in_unit_interval (A B : Action) (smax : Q) :
  0 < smax ->
  Qabs (a_at B - a_at A) < overflow_bound
  \/ Qabs (a_pos B - a_pos A) < overflow_bound ->
  exists q, speed A B smax = Fin q /\ 0 <= q <= 1
            /\ (a_at B == a_at A -> speed A B smax = Fin 0).
Proof.
  intros Hs Hfin.
  destruct (clamp_not_NaN (_speed A B smax) (_speed_not_NaN A B smax Hs Hfin))
    as (q & E & Hq).
  exists q. split; [exact E |]. split; [exact Hq |].
  intros Heq. unfold speed, _speed.
  assert (H0 : a_at B - a_at A == 0) by lra.
  assert (Hd : to_double (a_at B - a_at A) = Fin (a_at B - a_at A)).
  { apply to_double_finite. rewrite H0. reflexivity. }
  rewrite Hd. cbn [strict_eq].
  apply Qeq_bool_iff in H0. rewrite H0. reflexivity.
Qed.

Lemma speed_in_unit_interval_example :
  0 < 400
  /\ (Qabs (1 - 1) < overflow_bound \/ Qabs (80 - 20) < overflow_bound)
  /\ exists q,
       speed {| a_at := 1; a_pos := 20 |} {| a_at := 1; a_pos := 80 |} 400 = Fin q
       /\ 0 <= q <= 1
       /\ (1 == 1 ->
           speed {| a_at := 1; a_pos := 20 |} {| a_at := 1; a_pos := 80 |} 400
           = Fin 0).
Proof.
  split; [reflexivity |]. split; [left; reflexivity |].
  apply (speed_in_unit_interval
           {| a_at := 1; a_pos := 20 |} {| a_at := 1; a_pos := 80 |} 400).
  - reflexivity.
  - left. reflexivity.
Defined.

(** C8 as stated fails: the two finite actions [{at: -2^1023, pos: -2^1023}]
    and [{at: 2^1023, pos: 2^1023}] differ by [2^1024] in time and in
    position, both differences are [Infinity], their quotient is NaN and
    the clamp returns NaN. *)
Lemma speed_overflow_is_NaN :
  speed {| a_at := - inject_Z (2 ^ 1023); a_pos := - inject_Z (2 ^ 1023) |}
        {| a_at := inject_Z (2 ^ 1023); a_pos := inject_Z (2 ^ 1023) |} 400 = NaN
  /\ ~ (forall A B smax, 0 < smax ->
          exists q, speed A B smax = Fin q /\ 0 <= q <= 1).
Proof.
  assert (E : speed {| a_at := - inject_Z (2 ^ 1023); a_pos := - inject_Z (2 ^ 1023) |}
                    {| a_at := inject_Z (2 ^ 1023); a_pos := inject_Z (2 ^ 1023) |} 400
              = NaN) by (vm_compute; reflexivity).
  split; [exact E |].
  intros H.
  destruct (H {| a_at := - inject_Z (2 ^ 1023); a_pos := - inject_Z (2 ^ 1023) |}
              {| a_at := inject_Z (2 ^ 1023); a_pos := inject_Z (2 ^ 1023) |} 400
              ltac:(reflexivity)) as (q & Hq & _).
  rewrite E in Hq. discriminate.
Qed.

(** The guard of [_speed] is what keeps the result finite: an unguarded
    quotient of two zero differences is NaN. *)
Lemma unguarded_quotient_is_NaN : div (Fin (Qabs (50 - 50))) (Fin (1 - 1)) = NaN.
Proof. reflexivity. Qed.

(** ** Export document *)

Lemma export_action_integers (a : Action) :
  is_integer (a_at (export_action a)) /\ is_integer (a_pos (export_action a)).
Proof. split; eexists; reflexivity. Qed.

(** C9: the empty list exports the fixed document with no action and
    duration 0; the list [[{at: 0.5, pos: 50.2}]] exports the same
    document with the single action [{at: 500, pos: 50}] and duration 500.
    Both documents are written out in full: every key, in the order of the
    source, with its value. *)
Theorem dumpFunscript_examples (JSON_stringify : json -> nat -> string) :
  dumpFunscript JSON_stringify (Some [])
  = JSON_stringify
      (JObj [ ("actions", JArr []);
              ("inverted", JBool false);
              ("metadata",
               JObj [ ("creator", JStr "PythonDancerJS");
                      ("description", JStr EmptyString);
                      ("duration", JNum 0);
                      ("license", JStr "None");
                      ("notes", JStr EmptyString);
                      ("performers", JArr []);
                      ("script_url", JStr EmptyString);
                      ("tags", JArr []);
                      ("title", JStr EmptyString);
                      ("type", JStr "basic");
                      ("video_url", JStr EmptyString) ]);
              ("range", JNum 100);
              ("version", JStr "1.0") ]%string) 4%nat
  /\ dumpFunscript JSON_stringify (Some [ {| a_at := 1 # 2; a_pos := 251 # 5 |} ])
     = JSON_stringify
         (JObj [ ("actions", JArr [ JObj [ ("at", JNum 500); ("pos", JNum 50) ] ]);
                 ("inverted", JBool false);
                 ("metadata",
                  JObj [ ("creator", JStr "PythonDancerJS");
                         ("description", JStr EmptyString);
                         ("duration", JNum 500);
                         ("license", JStr "None");
                         ("notes", JStr EmptyString);
                         ("performers", JArr []);
                         ("script_url", JStr EmptyString);
                         ("tags", JArr []);
                         ("title", JStr EmptyString);
                         ("type", JStr "basic");
                         ("video_url", JStr EmptyString) ]);
                 ("range", JNum 100);
                 ("version", JStr "1.0") ]%string) 4%nat.
Proof. split; reflexivity. Qed.

(** ** ActionSynthesizer *)

Lemma barrier_loop_fold (peak : peak_fn) (e2p beats offs : list Q) (overflow : Q)
    (idx : list nat) (st : BarrierState) :
  peaks_at overflow = Some peak ->
  barrier_loop e2p beats offs overflow idx st
  = Some (barrier_fold peak e2p beats offs idx st).
Proof.
  intros Hp. revert st. induction idx as [| i rest IH]; intros st.
  - reflexivity.
  - cbn [barrier_loop]. rewrite Hp. cbn. apply IH.
Qed.

(** Whatever [overflow] is passed, [create_actions] resolves every target
    with Crop and starts its loop from [(50, overflow)]. *)
Lemma create_actions_crop_from_overflow (t : Q) (beats pitch energy : list Q)
    (energy_multiplier pitch_range overflow amplitude_centering center_offset : Q) :
  let data := mkFeatures t (Some beats) (Some pitch) (Some energy) in
  let pd := processed_data data energy_multiplier pitch_range
                           amplitude_centering center_offset in
  let e2p := default [] (p_energy_to_pos pd) in
  let offs := default [] (p_offsets pd) in
  let n := Nat.min (Nat.min (length e2p) (length beats)) (length offs) in
  create_actions data energy_multiplier pitch_range overflow
                 amplitude_centering center_offset
  = Some (actions (barrier_fold crop e2p beats offs (seq 0 n)
                                {| last_at := overflow; last_pos := 50; actions := [] |})).
Proof.
  cbn zeta. unfold create_actions, create_actions_barrier. cbn.
  rewrite (barrier_loop_fold crop) by reflexivity.
  reflexivity.
Qed.

(** [create_actions] cannot throw: the table lookup [peaks[0]] is defined. *)
Lemma create_actions_returns (data : AudioFeatures)
    (energy_multiplier pitch_range overflow amplitude_centering center_offset : Q) :
  is_Some (create_actions data energy_multiplier pitch_range overflow
                          amplitude_centering center_offset).
Proof.
  unfold create_actions, create_actions_barrier.
  destruct (d_pitch data), (d_energy data); try (eexists; reflexivity).
  cbn. destruct (d_beats data); [| eexists; reflexivity].
  rewrite (barrier_loop_fold crop) by reflexivity.
  eexists; reflexivity.
Qed.

(** With [overflow = 0] the call is the synthesis the spec describes: the
    misplaced argument shows only for Bounce and Fold. *)
Lemma create_actions_crop_agrees (data : AudioFeatures)
    (energy_multiplier pitch_range amplitude_centering center_offset : Q) :
  create_actions data energy_multiplier pitch_range 0
                 amplitude_centering center_offset
  = synthesis_spec data energy_multiplier pitch_range 0
                   amplitude_centering center_offset.
Proof. reflexivity. Qed.

(** *** Times in order *)

Lemma int_at_between (pos at_ lp la limit : Q) :
  la <= at_ -> la <= int_at pos at_ lp la limit <= at_.
Proof.
  intros Hle. unfold int_at.
  set (b := Qabs (lp - limit)). set (a := Qabs (pos - limit)).
  assert (Hb : 0 <= b) by apply Qabs_nonneg.
  assert (Ha : 0 <= a) by apply Qabs_nonneg.
  destruct (Qeq_bool (a + b) 0) eqn:E.
  - lra.
  - apply Qeq_bool_false in E.
    assert (Hd : 0 < a + b) by lra.
    split.
    + apply Qle_shift_div_l; [exact Hd |]. nra.
    + apply Qle_shift_div_r; [exact Hd |]. nra.
Qed.

Lemma int_at_weighted (pos at_ lp la limit b a : Q) :
  Qabs (lp - limit) == b -> Qabs (pos - limit) == a -> 0 < a + b ->
  int_at pos at_ lp la limit == (b * at_ + a * la) / (a + b).
Proof.
  intros Hb Ha Hd. unfold int_at.
  destruct (Qeq_bool _ 0) eqn:E.
  - apply Qeq_bool_iff in E. rewrite Hb, Ha in E. lra.
  - rewrite Hb, Ha. reflexivity.
Qed.

Lemma quotient_le (x y d : Q) : 0 < d -> x <= y -> x / d <= y / d.
Proof.
  intros Hd Hxy. unfold Qdiv. apply Qmult_le_compat_r; [exact Hxy |].
  apply Qinv_le_0_compat. lra.
Qed.

Lemma int_at_crossings_ordered (pos at_ lp la : Q) :
  la <= at_ ->
  (lp < 0 -> 100 < pos ->
   int_at pos at_ lp la 0 <= int_at pos at_ lp la 100)
  /\ (100 < lp -> pos < 0 ->
      int_at pos at_ lp la 100 <= int_at pos at_ lp la 0).
Proof.
  intros Hle. split; intros H1 H2.
  - rewrite (int_at_weighted pos at_ lp la 0 (- lp) pos);
      [| rewrite Qabs_neg by lra; ring | rewrite Qabs_pos by lra; ring | lra].
    rewrite (int_at_weighted pos at_ lp la 100 (100 - lp) (pos - 100));
      [| rewrite Qabs_neg by lra; ring | rewrite Qabs_pos by lra; ring | lra].
    assert (Hd : pos - 100 + (100 - lp) == pos + - lp) by ring.
    rewrite Hd. apply quotient_le; [lra | nra].
  - rewrite (int_at_weighted pos at_ lp la 100 (lp - 100) (100 - pos));
      [| rewrite Qabs_pos by lra; ring | rewrite Qabs_neg by lra; ring | lra].
    rewrite (int_at_weighted pos at_ lp la 0 lp (- pos));
      [| rewrite Qabs_pos by lra; ring | rewrite Qabs_neg by lra; ring | lra].
    assert (Hd : 100 - pos + (lp - 100) == - pos + lp) by ring.
    rewrite Hd. apply quotient_le; [lra | nra].
Qed.

Lemma midpoint_between (la at_ : Q) :
  la <= at_ -> la <= (la + at_) / 2 <= at_ /\ la <= (at_ + la) / 2 <= at_.
Proof. intros H. rewrite !half_is_mult. lra. Qed.

Ltac use_order_facts :=
  repeat match goal with
         | H : ?A -> _, H' : ?A |- _ => specialize (H H')
         end.

Lemma crop_within (pos at_ lp la : Q) :
  la <= at_ -> within la at_ (crop pos at_ lp la).
Proof.
  intros H. split; [| exact I]. repeat constructor; cbn; lra.
Qed.

Lemma create_peak_bounce_within (pos at_ lp la : Q) :
  la <= at_ -> within la at_ (create_peak_bounce pos at_ lp la).
Proof.
  intros H.
  pose proof (int_at_between pos at_ lp la 0 H) as B0.
  pose proof (int_at_between pos at_ lp la 100 H) as B100.
  destruct (int_at_crossings_ordered pos at_ lp la H) as [O1 O2].
  unfold create_peak_bounce.
  case_Qltb lp 0; [| case_Qltb 100 lp];
    (case_Qltb 100 pos; [| case_Qltb pos 0]);
    use_order_facts; cbn; split; repeat constructor; cbn; lra.
Qed.

Lemma create_peak_fold_within (pos at_ lp la : Q) :
  la <= at_ -> within la at_ (create_peak_fold pos at_ lp la).
Proof.
  intros H. destruct (midpoint_between la at_ H) as [Hm _].
  unfold create_peak_fold.
  destruct (Qltb lp 0), (Qltb 100 lp), (Qltb pos 0), (Qltb 100 pos);
    cbn; split; repeat constructor; cbn; lra.
Qed.

Lemma peaks_within (overflow : Q) (peak : peak_fn) :
  peaks_at overflow = Some peak ->
  forall pos at_ lp la, la <= at_ -> within la at_ (peak pos at_ lp la).
Proof.
  unfold peaks_at. destruct (Qfloor overflow <? 0)%Z; [discriminate |].
  destruct (Z.to_nat (Qfloor overflow)) as [| [| [| n]]]; cbn;
    intros [= <-] pos at_ lp la H.
  - exact (crop_within pos at_ lp la H).
  - exact (create_peak_bounce_within pos at_ lp la H).
  - exact (create_peak_fold_within pos at_ lp la H).
Qed.

Lemma at_nondecreasing_app (l1 l2 : list Action) (t : Q) :
  at_nondecreasing l1 -> at_nondecreasing l2 ->
  Forall (fun a => a_at a <= t) l1 -> Forall (fun a => t <= a_at a) l2 ->
  at_nondecreasing (l1 ++ l2).
Proof.
  intros S1 S2 B1 B2. induction l1 as [| a [| b l1'] IH].
  - exact S2.
  - destruct l2 as [| c l2']; [exact I |]. cbn. split; [| exact S2].
    inversion B1; inversion B2; subst. lra.
  - cbn in S1 |- *. destruct S1 as [Hab S1]. split; [exact Hab |].
    apply IH; [exact S1 |]. inversion B1; assumption.
Qed.

Lemma barrier_step_ordered (peak : peak_fn) (st : BarrierState)
    (unoffset_pos at_ offset : Q) :
  (forall pos at_ lp la, la <= at_ -> within la at_ (peak pos at_ lp la)) ->
  ordered_so_far st -> last_at st <= at_ ->
  ordered_so_far (barrier_step peak st unoffset_pos at_ offset)
  /\ last_at (barrier_step peak st unoffset_pos at_ offset) = at_.
Proof.
  intros Hpeak [Hs Hb] Hle. split; [| reflexivity].
  destruct (midpoint_between (last_at st) at_ Hle) as [_ Hm].
  set (mid := (at_ + last_at st) / 2) in *.
  destruct (Hpeak (unoffset_pos + offset) mid (last_pos st) (last_at st))
    as [Bup Sup]; [lra |].
  destruct (Hpeak (unoffset_pos * -1 + offset) at_
                  (unoffset_pos + offset) mid) as [Bdown Sdown]; [lra |].
  unfold barrier_step, ordered_so_far. cbn. fold mid. split.
  - apply (at_nondecreasing_app _ _ mid); [| exact Sdown | |].
    + apply (at_nondecreasing_app _ _ (last_at st)); [exact Hs | exact Sup | exact Hb |].
      eapply Forall_impl; [exact Bup |]. cbn. intros a Ha. lra.
    + apply Forall_app. split.
      * eapply Forall_impl; [exact Hb |]. cbn. intros a Ha. lra.
      * eapply Forall_impl; [exact Bup |]. cbn. intros a Ha. lra.
    + eapply Forall_impl; [exact Bdown |]. cbn. intros a Ha. lra.
  - rewrite !Forall_app. repeat split.
    + eapply Forall_impl; [exact Hb |]. cbn. intros a Ha. lra.
    + eapply Forall_impl; [exact Bup |]. cbn. intros a Ha. lra.
    + eapply Forall_impl; [exact Bdown |]. cbn. intros a Ha. lra.
Qed.

Lemma barrier_fold_ordered (peak : peak_fn) (e2p beats offs : list Q)
    (n k : nat) (st : BarrierState) :
  (forall pos at_ lp la, la <= at_ -> within la at_ (peak pos at_ lp la)) ->
  (k + n <= length beats)%nat ->
  ascending_from (last_at st) (drop k beats) ->
  ordered_so_far st ->
  ordered_so_far (barrier_fold peak e2p beats offs (seq k n) st).
Proof.
  intros Hpeak. revert k st. induction n as [| n IH]; intros k st Hlen Hasc Hord.
  - exact Hord.
  - cbn [seq barrier_fold fold_left].
    destruct (lookup_lt_is_Some_2 beats k) as [b Hb]; [lia |].
    rewrite Hb. cbn [default from_option id].
    rewrite (drop_S _ _ _ Hb) in Hasc. destruct Hasc as [Hle Hasc].
    destruct (barrier_step_ordered peak st (default 0 (e2p !! k)) b
                (default 0 (offs !! k)) Hpeak Hord Hle) as [Hord' Hlast].
    apply IH; [lia | rewrite Hlast; exact Hasc | exact Hord'].
Qed.

(** With beats that do not decrease, none earlier than the start time, the
    loop emits non-decreasing times under each of the three policies. *)
Theorem create_actions_barrier_nondecreasing (data : ProcessedData)
    (start_time overflow : Q) (beats : list Q) (peak : peak_fn) :
  d_beats (p_data data) = Some beats ->
  ascending_from start_time beats ->
  peaks_at overflow = Some peak ->
  exists acts,
    create_actions_barrier data start_time overflow = Some acts
    /\ at_nondecreasing acts.
Proof.
  intros Hb Hasc Hp. unfold create_actions_barrier. rewrite Hb.
  destruct (p_energy_to_pos data) as [e2p |]; [| exists []; split; [reflexivity | exact I]].
  destruct (p_offsets data) as [offs |]; [| exists []; split; [reflexivity | exact I]].
  rewrite (barrier_loop_fold peak) by exact Hp. cbn.
  eexists. split; [reflexivity |].
  apply barrier_fold_ordered.
  - exact (peaks_within overflow peak Hp).
  - cbn. lia.
  - rewrite drop_0. exact Hasc.
  - split; [exact I | constructor].
Qed.

(** In particular the synthesis call keeps the times in order whenever
    its [overflow] argument, which it uses as start time, is not later
    than the first beat: always so for Crop (0) and beats at non-negative
    times. *)
Corollary create_actions_nondecreasing (data : AudioFeatures) (beats : list Q)
    (energy_multiplier pitch_range overflow amplitude_centering center_offset : Q) :
  d_beats data = Some beats ->
  ascending_from overflow beats ->
  exists acts,
    create_actions data energy_multiplier pitch_range overflow
                   amplitude_centering center_offset = Some acts
    /\ at_nondecreasing acts.
Proof.
  intros Hb Hasc. unfold create_actions.
  destruct (d_pitch data), (d_energy data);
    try (exists []; split; [reflexivity | exact I]).
  apply (create_actions_barrier_nondecreasing _ _ _ beats crop);
    [exact Hb | exact Hasc | reflexivity].
Qed.

(** C1, evaluated on [two_beats] with [energy_multiplier = 2] and
    [pitch_range = 100] (targets 50, -50, 150, 50): with [overflow = 1] and
    with [overflow = 2] the out-of-range targets are clamped as in Crop,
    while the policy named by the argument would emit the Bounce
    reflections, respectively the Fold actions, listed second. *)
Theorem create_actions_policy_not_applied :
  create_actions two_beats 2 100 1 0 0
    ≡ Some [ mkAction 1 50; mkAction 1 0; mkAction (3 # 2) 100; mkAction 2 50 ]
  /\ synthesis_spec two_beats 2 100 1 0 0
    ≡ Some [ mkAction (1 # 2) 50; mkAction (3 # 4) 0; mkAction 1 50;
             mkAction (9 # 8) 0; mkAction (11 # 8) 100; mkAction (3 # 2) 50;
             mkAction (7 # 4) 100; mkAction 2 50 ]
  /\ create_actions two_beats 2 100 2 0 0
    ≡ Some [ mkAction (3 # 2) 50; mkAction 1 0; mkAction (3 # 2) 100; mkAction 2 50 ]
  /\ synthesis_spec two_beats 2 100 2 0 0
    ≡ Some [ mkAction (1 # 2) 50; mkAction (3 # 4) 0; mkAction 1 50;
             mkAction (5 # 4) 50; mkAction (5 # 4) 50; mkAction (3 # 2) (-50);
             mkAction (7 # 4) 100; mkAction 2 50 ].
Proof. repeat split; same_result. Qed.

(** C2, evaluated on [early_beat] with [overflow = 2]: the loop starts at
    time 2, the first action is emitted at 1.25 s and the second at 0.5 s. *)
Theorem create_actions_goes_back_in_time :
  create_actions early_beat 1 100 2 0 0
    ≡ Some [ mkAction (5 # 4) 75; mkAction (1 # 2) 25 ]
  /\ forall acts,
       create_actions early_beat 1 100 2 0 0 = Some acts ->
       ~ at_nondecreasing acts.
Proof.
  split; [same_result |].
  intros acts H. vm_compute in H. injection H as <-.
  intros [Hle _]. vm_compute in Hle. apply Hle. reflexivity.
Qed.

(** C3, evaluated on [late_beat] with [overflow = 1]: the call runs the
    loop from the accumulator [(50, 1)], so the first action is emitted at
    1.5 s; from [(50, 0)] it is emitted at 1 s. *)
Theorem create_actions_starts_at_overflow :
  create_actions late_beat 1 100 1 0 0
    = create_actions_barrier (processed_data late_beat 1 100 0 0) 1 0
  /\ create_actions late_beat 1 100 1 0 0
    ≡ Some [ mkAction (3 # 2) 75; mkAction 2 25 ]
  /\ create_actions_barrier (processed_data late_beat 1 100 0 0) 0 0
    ≡ Some [ mkAction 1 75; mkAction 2 25 ].
Proof. repeat split; same_result. Qed.

(** ** FeatureExtractor: segmentation *)

Lemma splits_loop_crossings (beats frames : list Q) (k : Z) (sp : list Z) (j : nat) :
  let cr := crossings frames (drop j beats) k in
  let st := splits_loop beats frames k {| splits := sp; last := j |} in
  splits st = sp ++ (if (0 <? j)%nat then cr else tl cr)
  /\ last st = (j + length cr)%nat.
Proof.
  revert k sp j. induction frames as [| frame rest IH]; intros k sp j; cbn zeta.
  - destruct j; cbn; rewrite app_nil_r; split; (reflexivity || lia).
  - cbn [splits_loop last splits].
    destruct (beats !! j) as [beat |] eqn:Hb.
    + rewrite (drop_S _ _ _ Hb). cbn [crossings].
      destruct (Qltb beat frame).
      * specialize (IH (k + 1)%Z
                      (if (0 <? j)%nat then sp ++ [k] else sp) (S j)).
        cbn zeta in IH. destruct IH as [IHs IHl].
        rewrite IHs, IHl. change (0 <? S j)%nat with true.
        cbn [length tl]. split; [| lia].
        destruct (0 <? j)%nat; [rewrite <- app_assoc |]; reflexivity.
      * rewrite <- (drop_S _ _ _ Hb). apply IH.
    + rewrite (drop_ge beats j) by (apply lookup_ge_None; exact Hb).
      destruct j; cbn; rewrite app_nil_r; split; (reflexivity || lia).
Qed.

Lemma crossings_from (frames beats : list Q) (k : Z) :
  Forall (fun c => (k <= c)%Z) (crossings frames beats k).
Proof.
  revert beats k. induction frames as [| frame rest IH]; intros beats k.
  - constructor.
  - destruct beats as [| beat later]; [constructor |]. cbn.
    destruct (Qltb beat frame).
    + constructor; [lia |].
      eapply Forall_impl; [apply IH |]. cbn. intros; lia.
    + eapply Forall_impl; [apply IH |]. cbn. intros; lia.
Qed.

Lemma consecutive_snoc {A B : Type} (f : A -> A -> B) (l : list A) (x y : A) :
  consecutive f (l ++ [x; y]) = consecutive f (l ++ [x]) ++ [f x y].
Proof.
  induction l as [| a [| b l'] IH]; try reflexivity.
  cbn [app consecutive] in *. rewrite IH. reflexivity.
Qed.

Lemma segment_bounds_resolved (bs : list Z) (len : nat) :
  Forall (fun b => (0 <= b)%Z) bs ->
  segment_bounds (bs ++ [(-1)%Z]) len
  = consecutive (fun s e => (s, e)) (bs ++ [Z.of_nat len]).
Proof.
  unfold segment_bounds.
  induction bs as [| a [| b l'] IH]; intros Hall; try reflexivity.
  inversion Hall as [| ? ? Ha Htl]; subst.
  specialize (IH Htl). cbn [app consecutive] in *. rewrite IH.
  inversion Htl as [| ? ? Hb _]; subst.
  destruct (Z.eqb_spec b (-1)); [lia | reflexivity].
Qed.

(** C6 as stated fails: with frames at 0..5 s and beats at 1 s and 3 s,
    both beats are consumed (at frames 2 and 4) but only the second one
    opens a boundary. *)
Lemma compute_splits_skips_first_beat :
  crossings [0; 1; 2; 3; 4; 5] [1; 3] 0 = [2; 4]%Z
  /\ compute_splits [0; 1; 2; 3; 4; 5] [1; 3] = [0; 4; -1]%Z
  /\ compute_splits [0; 1; 2; 3; 4; 5] [1; 3]
     <> 0%Z :: crossings [0; 1; 2; 3; 4; 5] [1; 3] 0 ++ [(-1)%Z].
Proof. repeat split. discriminate. Qed.

(** C6, amended: a boundary is opened each time a frame time exceeds the
    next unconsumed beat time, except for the first consumed beat, which
    opens none; every such frame consumes one beat; and the segments are
    the spans between consecutive boundaries, the last one running to the
    end of the truncated arrays. *)
Theorem compute_splits_boundaries (frames beats : list Q) (len : nat) :
  let cr := crossings frames beats 0 in
  let boundaries := (0 :: tl cr)%Z in
  compute_splits frames beats = boundaries ++ [(-1)%Z]
  /\ last (splits_loop beats frames 0 initial_split) = length cr
  /\ segment_bounds (compute_splits frames beats) len
     = consecutive (fun s e => (s, e)) (boundaries ++ [Z.of_nat len])
  /\ list.last (segment_bounds (compute_splits frames beats) len)
     = Some (List.last boundaries 0%Z, Z.of_nat len).
Proof.
  cbn zeta.
  pose proof (splits_loop_crossings beats frames 0 [0%Z] 0) as [Hs Hl].
  cbn zeta in Hs, Hl. rewrite drop_0 in Hs, Hl. cbn in Hs.
  assert (Hc : compute_splits frames beats
               = (0 :: tl (crossings frames beats 0))%Z ++ [(-1)%Z]).
  { unfold compute_splits. rewrite Hs. reflexivity. }
  assert (Hpos : Forall (fun b => (0 <= b)%Z) (0 :: tl (crossings frames beats 0))%Z).
  { constructor; [lia |]. pose proof (crossings_from frames beats 0) as H.
    destruct (crossings frames beats 0); [constructor |].
    inversion H; assumption. }
  split; [exact Hc |]. split; [exact Hl |].
  rewrite Hc, (segment_bounds_resolved _ len Hpos). split; [reflexivity |].
  destruct (exists_last (l := (0 :: tl (crossings frames beats 0))%Z))
    as (front & b & Hfb); [discriminate |].
  rewrite Hfb, <- app_assoc. cbn [app].
  rewrite consecutive_snoc, last_snoc, List.last_last. reflexivity.
Qed.

(** ** AutoTuner *)


Lemma clamp_bounds (lo hi x : Q) : lo <= hi -> lo <= Qmin hi (Qmax lo x) <= hi.
Proof.
  intros H. split.
  - apply Q.min_glb; [exact H | apply Q.le_max_l].
  - apply Q.le_min_l.
Qed.



(** ** The synthesizer does not touch its argument *)

Section Frame.

Import Store.

Lemma bind_run {A B : Type} (m : M A) (f : A -> M B) (h : heap) :
  (m ≫= f) h = match m h with
               | Some (a, h') => f a h'
               | None => None
               end.
Proof. reflexivity. Qed.

Lemma fresh_unallocated (h : heap) : h !! fresh (dom h) = None.
Proof. apply not_elem_of_dom, is_fresh. Qed.

Lemma frames_ret {A : Type} (h0 : heap) (a : A) (P : A -> Prop) :
  P a -> frames h0 (mret a) P.
Proof. intros HP h a' h' Hsub [= <- <-]. auto. Qed.

Lemma frames_bind {A B : Type} (h0 : heap) (m : M A) (f : A -> M B)
    (P : A -> Prop) (R : B -> Prop) :
  frames h0 m P -> (forall a, P a -> frames h0 (f a) R) ->
  frames h0 (m ≫= f) R.
Proof.
  intros Hm Hf h b h2 Hsub Hrun. rewrite bind_run in Hrun.
  destruct (m h) as [[a h1] |] eqn:Em; [| discriminate].
  destruct (Hm h a h1 Hsub Em) as [Hsub1 HP].
  exact (Hf a HP h1 b h2 Hsub1 Hrun).
Qed.

Lemma frames_weaken {A : Type} (h0 : heap) (m : M A) (P R : A -> Prop) :
  frames h0 m P -> (forall a, P a -> R a) -> frames h0 m R.
Proof.
  intros Hm HPR h a h' Hsub Hrun.
  destruct (Hm h a h' Hsub Hrun). auto.
Qed.

Lemma frames_throw {A : Type} (h0 : heap) (P : A -> Prop) :
  frames h0 throw P.
Proof. intros h a h' _ [=]. Qed.

Lemma frames_lift {A : Type} (h0 : heap) (o : option A) :
  frames h0 (lift o) (fun _ => True).
Proof. destruct o; [apply frames_ret; exact I | apply frames_throw]. Qed.

(** A new cell lies outside [h0]. *)
Lemma frames_alloc (h0 : heap) (c : cell) :
  frames h0 (alloc c) (fun l => h0 !! l = None).
Proof.
  intros h l h' Hsub [= <- <-].
  assert (Hnew : h0 !! fresh (dom h) = None)
    by (eapply lookup_weaken_None; [apply fresh_unallocated | exact Hsub]).
  split; [| exact Hnew].
  apply insert_subseteq_r; assumption.
Qed.

Lemma frames_spread (h0 : heap) (o : loc) :
  frames h0 (spread o) (fun l => h0 !! l = None).
Proof.
  intros h l h' Hsub Hrun. unfold spread in Hrun.
  destruct (h !! o) as [[props | |] |]; try discriminate.
  exact (frames_alloc h0 _ h l h' Hsub Hrun).
Qed.

Lemma frames_get_prop (h0 : heap) (o : loc) (k : string) :
  frames h0 (get_prop o k) (fun _ => True).
Proof.
  intros h v h' Hsub Hrun. unfold get_prop in Hrun.
  destruct (h !! o) as [[props | |] |]; try discriminate.
  injection Hrun as _ <-. auto.
Qed.

Lemma frames_read_arr (h0 : heap) (v : val) :
  frames h0 (read_arr v) (fun _ => True).
Proof.
  intros h xs h' Hsub Hrun. unfold read_arr in Hrun.
  destruct v as [| l |]; try discriminate.
  destruct (h !! l) as [[| ys |] |]; try discriminate.
  injection Hrun as _ <-. auto.
Qed.

(** Writes go to cells outside [h0]. *)
Lemma frames_set_prop (h0 : heap) (o : loc) (k : string) (v : val) :
  h0 !! o = None -> frames h0 (set_prop o k v) (fun _ => True).
Proof.
  intros Ho h u h' Hsub Hrun. unfold set_prop in Hrun.
  destruct (h !! o) as [[props | |] |]; try discriminate.
  injection Hrun as _ <-. split; [| exact I].
  apply insert_subseteq_r; assumption.
Qed.

Lemma frames_push (h0 : heap) (l : loc) (new_acts : list Action) :
  h0 !! l = None -> frames h0 (push l new_acts) (fun _ => True).
Proof.
  intros Hl h u h' Hsub Hrun. unfold push in Hrun.
  destruct (h !! l) as [[| | acts] |]; try discriminate.
  injection Hrun as _ <-. split; [| exact I].
  apply insert_subseteq_r; assumption.
Qed.

Lemma frames_normalize_h (h0 : heap) (data : val) :
  frames h0 (normalize_h data) (fun _ => True).
Proof.
  unfold normalize_h. destruct (falsy data).
  - eapply frames_bind; [apply frames_alloc |].
    intros l _. apply frames_ret. exact I.
  - eapply frames_bind; [apply frames_read_arr |]. intros xs _.
    eapply frames_bind; [apply frames_alloc |].
    intros l _. apply frames_ret. exact I.
Qed.

Lemma frames_get_arr (h0 : heap) (o : loc) (k : string) :
  frames h0 (get_arr o k) (fun _ => True).
Proof.
  unfold get_arr. eapply frames_bind; [apply frames_get_prop |].
  intros v _. apply frames_read_arr.
Qed.

Lemma frames_barrier_loop_h (h0 : heap) (acts data : loc)
    (overflow : Q) (idx : list nat) (la lp : Q) :
  h0 !! acts = None ->
  frames h0 (barrier_loop_h acts data overflow idx la lp) (fun _ => True).
Proof.
  intros Hacts. revert la lp.
  induction idx as [| i rest IH]; intros la lp; cbn [barrier_loop_h].
  - apply frames_ret. exact I.
  - repeat (eapply frames_bind;
            [first [ apply frames_get_arr | apply frames_lift
                   | apply frames_push; exact Hacts ] |];
            intros ? _).
    apply IH.
Qed.

Lemma frames_create_actions_barrier_h (h0 : heap) (data : loc)
    (start_time overflow : Q) :
  frames h0 (create_actions_barrier_h data start_time overflow)
         (fun _ => True).
Proof.
  unfold create_actions_barrier_h.
  eapply frames_bind; [apply frames_alloc |]. intros acts Hacts.
  do 3 (eapply frames_bind; [apply frames_get_prop |]; intros ? _).
  match goal with |- context [if ?b then _ else _] => destruct b end.
  - apply frames_ret. exact I.
  - do 3 (eapply frames_bind; [apply frames_get_arr |]; intros ? _).
    eapply frames_bind; [apply frames_barrier_loop_h; exact Hacts |].
    intros _ _. apply frames_ret. exact I.
Qed.

(** Whenever the call returns, every cell of the caller's store (the
    argument object and the arrays it refers to among them) is what it
    was before the call. *)
Lemma create_actions_h_frame (h : heap) (data : loc)
    (energy_multiplier pitch_range overflow amplitude_centering center_offset : Q)
    (r : loc) (h' : heap) :
  create_actions_h data energy_multiplier pitch_range overflow
                   amplitude_centering center_offset h = Some (r, h') ->
  h ⊆ h'.
Proof.
  intros Hrun.
  assert (Hf : frames h (create_actions_h data energy_multiplier
                 pitch_range overflow amplitude_centering center_offset)
                 (fun _ => True));
    [| exact (proj1 (Hf h r h' (reflexivity h) Hrun))].
  unfold create_actions_h.
  do 2 (eapply frames_bind; [apply frames_get_prop |]; intros ? _).
  match goal with |- context [if ?b then _ else _] => destruct b end.
  - eapply frames_weaken; [apply frames_alloc | auto].
  - eapply frames_bind; [apply frames_spread |]. intros pd Hpd.
    do 2 (eapply frames_bind; [apply frames_normalize_h |]; intros ? _).
    do 2 (eapply frames_bind; [apply frames_read_arr |]; intros ? _).
    eapply frames_bind; [apply frames_alloc |]. intros sliced _.
    eapply frames_bind; [apply frames_read_arr |]. intros sl _.
    eapply frames_bind; [apply frames_alloc |]. intros offs _.
    eapply frames_bind; [apply frames_set_prop; exact Hpd |]. intros _ _.
    eapply frames_bind; [apply frames_alloc |]. intros e2p _.
    eapply frames_bind; [apply frames_set_prop; exact Hpd |]. intros _ _.
    apply frames_create_actions_barrier_h.
Qed.

End Frame.

(** *** Running the store-level embedding *)

Section Run.

Import Store.

Lemma get_prop_run (h : heap) (o : loc) (props : gmap string val) (k : string) :
  h !! o = Some (CObj props) ->
  get_prop o k h = Some (default VUndef (props !! k), h).
Proof. intros H. unfold get_prop. rewrite H. reflexivity. Qed.

Lemma set_prop_run (h : heap) (o : loc) (props : gmap string val)
    (k : string) (v : val) :
  h !! o = Some (CObj props) ->
  set_prop o k v h = Some (tt, <[o := CObj (<[k := v]> props)]> h).
Proof. intros H. unfold set_prop. rewrite H. reflexivity. Qed.

Lemma read_arr_run (h : heap) (l : loc) (xs : list Q) :
  h !! l = Some (CArr xs) -> read_arr (VRef l) h = Some (xs, h).
Proof. intros H. unfold read_arr. rewrite H. reflexivity. Qed.

Lemma push_run (h : heap) (l : loc) (acts new_acts : list Action) :
  h !! l = Some (CActs acts) ->
  push l new_acts h = Some (tt, <[l := CActs (acts ++ new_acts)]> h).
Proof. intros H. unfold push. rewrite H. reflexivity. Qed.

Lemma lookup_alloc_old (h : heap) (c x : cell) (l : loc) :
  h !! l = Some x -> <[fresh (dom h) := c]> h !! l = Some x.
Proof.
  intros H. rewrite lookup_insert_ne; [exact H |].
  intros E. rewrite <- E, fresh_unallocated in H. discriminate.
Qed.

Lemma get_arr_run (h : heap) (o l : loc) (props : gmap string val)
    (k : string) (xs : list Q) :
  h !! o = Some (CObj props) -> props !! k = Some (VRef l) ->
  h !! l = Some (CArr xs) ->
  get_arr o k h = Some (xs, h).
Proof.
  intros Ho Hk Hl. unfold get_arr.
  rewrite bind_run, (get_prop_run _ _ _ _ Ho), Hk. cbn.
  apply read_arr_run. exact Hl.
Qed.

Lemma loop_arrays_push (h : heap) (pd la : loc) (e2p bs os : list Q)
    (acts acts' : list Action) :
  h !! la = Some (CActs acts) ->
  loop_arrays h pd e2p bs os ->
  loop_arrays (<[la := CActs acts']> h) pd e2p bs os.
Proof.
  intros Ha (props & le & lb & lo & Hpd & Pe & He & Pb & Hb & Po & Ho).
  exists props, le, lb, lo.
  rewrite !lookup_insert_ne by (intros <-; congruence). auto 10.
Qed.

Lemma barrier_loop_h_run (h : heap) (la pd : loc) (e2p bs os : list Q)
    (overflow : Q) (idx : list nat) (last_at last_pos : Q) (acts0 : list Action) :
  h !! la = Some (CActs acts0) ->
  loop_arrays h pd e2p bs os ->
  barrier_loop_h la pd overflow idx last_at last_pos h
  = (st ← barrier_loop e2p bs os overflow idx
            {| last_at := last_at; last_pos := last_pos; actions := acts0 |};
     Some (tt, <[la := CActs (actions st)]> h)).
Proof.
  revert h last_at last_pos acts0.
  induction idx as [| i rest IH]; intros h last_at last_pos acts0 Ha Harr.
  - cbn. rewrite insert_id by exact Ha. reflexivity.
  - cbn [barrier_loop_h barrier_loop].
    pose proof Harr as (props & le & lb & lo & Hpd & Pe & He & Pb & Hb & Po & Ho).
    rewrite bind_run, (get_arr_run _ _ _ _ _ _ Hpd Pe He).
    rewrite bind_run, (get_arr_run _ _ _ _ _ _ Hpd Pb Hb).
    rewrite bind_run, (get_arr_run _ _ _ _ _ _ Hpd Po Ho).
    destruct (peaks_at overflow) as [peak |]; [| reflexivity].
    cbn [lift]. rewrite bind_run. cbn [mret M_ret].
    rewrite bind_run, (push_run _ _ _ _ Ha).
    rewrite bind_run. cbn [mret M_ret].
    rewrite bind_run.
    erewrite push_run by apply lookup_insert_eq.
    rewrite insert_insert_eq.
    match goal with
    | |- context [<[la := CActs ?a]> h] =>
        set (acts2 := a); set (h2 := <[la := CActs a]> h)
    end.
    assert (Ha2 : h2 !! la = Some (CActs acts2)) by apply lookup_insert_eq.
    rewrite (IH h2 _ _ acts2 Ha2 (loop_arrays_push _ _ _ _ _ _ _ _ Ha Harr)).
    cbn. unfold barrier_step. cbn. fold acts2.
    destruct (barrier_loop _ _ _ _ _ _); cbn; [| reflexivity].
    unfold h2. rewrite insert_insert_eq. reflexivity.
Qed.

Lemma wf_prop_mono (h h' : heap) (props : gmap string val) (k : string) :
  h ⊆ h' -> wf_prop h props k -> wf_prop h' props k.
Proof.
  intros Hsub. unfold wf_prop.
  destruct (props !! k) as [[q | l |] |]; auto.
  intros [xs Hl]. exists xs. eapply lookup_weaken; eassumption.
Qed.

Lemma field_at_mono (h h' : heap) (props : gmap string val) (k : string) :
  h ⊆ h' -> wf_prop h props k -> field_at h' props k = field_at h props k.
Proof.
  intros Hsub. unfold wf_prop, field_at.
  destruct (props !! k) as [[q | l |] |]; auto.
  intros [xs Hl]. rewrite Hl, (lookup_weaken _ _ _ _ Hl Hsub). reflexivity.
Qed.

(** The store-level loop computes what the pure one computes, in a new
    cell. *)
Lemma create_actions_barrier_h_run (h : heap) (pd le lo : loc)
    (props : gmap string val) (e2p os : list Q) (pdp : ProcessedData)
    (start_time overflow : Q) :
  h !! pd = Some (CObj props) ->
  props !! "energy_to_pos"%string = Some (VRef le) -> h !! le = Some (CArr e2p) ->
  props !! "offsets"%string = Some (VRef lo) -> h !! lo = Some (CArr os) ->
  wf_prop h props "beats" ->
  p_energy_to_pos pdp = Some e2p -> p_offsets pdp = Some os ->
  d_beats (p_data pdp) = field_at h props "beats" ->
  create_actions_barrier_h pd start_time overflow h
  = (acts ← create_actions_barrier pdp start_time overflow;
     Some (fresh (dom h), <[fresh (dom h) := CActs acts]> h)).
Proof.
  intros Hpd Pe He Po Ho Hwf Ee Eo Eb.
  unfold create_actions_barrier_h, create_actions_barrier.
  rewrite Ee, Eo, Eb.
  rewrite bind_run. cbn [alloc].
  set (la := fresh (dom h)). set (h1 := <[la := CActs []]> h).
  assert (Hold : forall l x, h !! l = Some x -> h1 !! l = Some x)
    by (intros; apply lookup_alloc_old; assumption).
  rewrite bind_run, (get_prop_run _ _ _ _ (Hold _ _ Hpd)), Pe.
  rewrite bind_run, (get_prop_run _ _ _ _ (Hold _ _ Hpd)).
  rewrite bind_run, (get_prop_run _ _ _ _ (Hold _ _ Hpd)), Po.
  cbn [default from_option id falsy orb].
  unfold wf_prop, field_at in *.
  destruct (props !! "beats"%string) as [[q | lb |] |] eqn:Pb; try contradiction;
    cbn [default from_option id falsy orb]; try reflexivity.
  destruct Hwf as [bs Hb]. rewrite Hb.
  assert (Harr : loop_arrays h1 pd e2p bs os).
  { exists props, le, lb, lo. auto 10. }
  destruct Harr as (props' & le' & lb' & lo' & Hpd' & Pe' & He' & Pb' & Hb' & Po' & Ho').
  rewrite bind_run, (get_arr_run _ _ _ _ _ _ Hpd' Pe' He').
  rewrite bind_run, (get_arr_run _ _ _ _ _ _ Hpd' Pb' Hb').
  rewrite bind_run, (get_arr_run _ _ _ _ _ _ Hpd' Po' Ho').
  rewrite bind_run.
  rewrite (barrier_loop_h_run h1 la pd e2p bs os _ _ _ _ []
             (lookup_insert_eq _ _ _)); cycle 1.
  { exists props', le', lb', lo'. auto 10. }
  unfold barrier_init.
  destruct (barrier_loop _ _ _ _ _ _) as [st |]; cbn; [| reflexivity].
  unfold h1. rewrite insert_insert_eq. reflexivity.
Qed.

Lemma normalize_h_run (h : heap) (l : loc) (xs : list Q) :
  h !! l = Some (CArr xs) ->
  normalize_h (VRef l) h
  = Some (VRef (fresh (dom h)),
          <[fresh (dom h) := CArr (normalize (Some xs))]> h).
Proof.
  intros H. unfold normalize_h. cbn [falsy].
  rewrite bind_run, (read_arr_run _ _ _ H). reflexivity.
Qed.

Lemma features_at_mono (h h' : heap) (d : loc) :
  h ⊆ h' -> wf_features h d -> features_at h' d = features_at h d.
Proof.
  intros Hsub (props & Hd & Hb & Hp & He). unfold features_at.
  rewrite Hd, (lookup_weaken _ _ _ _ Hd Hsub).
  rewrite !(field_at_mono h h') by assumption. reflexivity.
Qed.

Lemma create_actions_h_run (h : heap) (d : loc)
    (energy_multiplier pitch_range overflow amplitude_centering center_offset : Q) :
  wf_features h d ->
  exists f r h' acts,
    features_at h d = Some f
    /\ create_actions_h d energy_multiplier pitch_range overflow
                        amplitude_centering center_offset h = Some (r, h')
    /\ h' !! r = Some (CActs acts)
    /\ create_actions f energy_multiplier pitch_range overflow
                      amplitude_centering center_offset = Some acts.
Proof.
  intros (props & Hd & Hb & Hp & He).
  unfold features_at. rewrite Hd.
  match goal with |- context [Some ?x = Some _] => set (f := x) end.
  exists f.
  assert (Fb : d_beats f = field_at h props "beats") by reflexivity.
  assert (Fp : d_pitch f = field_at h props "pitch") by reflexivity.
  assert (Fe : d_energy f = field_at h props "energy") by reflexivity.
  clearbody f.
  unfold create_actions_h.
  rewrite bind_run, (get_prop_run _ _ _ _ Hd).
  rewrite bind_run, (get_prop_run _ _ _ _ Hd).
  unfold create_actions. rewrite Fp, Fe.
  pose proof Hp as Hp'. pose proof He as He'.
  unfold wf_prop in Hp', He'. unfold field_at.
  destruct (props !! "pitch"%string) as [[qp | lp |] |] eqn:Pp; try contradiction;
    cbn [default from_option id falsy orb].
  2, 3: (do 3 eexists; split; [reflexivity |]; split; [reflexivity |];
         split; [apply lookup_insert_eq | reflexivity]).
  destruct Hp' as [ps Hlp]. rewrite Hlp.
  destruct (props !! "energy"%string) as [[qe | le |] |] eqn:Pe; try contradiction;
    cbn [default from_option id falsy orb].
  2, 3: (do 3 eexists; split; [reflexivity |]; split; [reflexivity |];
         split; [apply lookup_insert_eq | reflexivity]).
  destruct He' as [es Hle]. rewrite Hle.
  (* the copy *)
  rewrite bind_run. unfold spread. rewrite Hd. cbn [alloc].
  set (l1 := fresh (dom h)). set (h1 := <[l1 := CObj props]> h).
  assert (N1 : h !! l1 = None) by apply fresh_unallocated.
  assert (Hold1 : forall l x, h !! l = Some x -> h1 !! l = Some x)
    by (intros; apply lookup_alloc_old; assumption).
  assert (H1 : h1 !! l1 = Some (CObj props)) by apply lookup_insert_eq.
  (* the normalized arrays *)
  rewrite bind_run, (normalize_h_run _ _ _ (Hold1 _ _ Hlp)).
  set (np := normalize (Some ps)).
  set (l2 := fresh (dom h1)). set (h2 := <[l2 := CArr np]> h1).
  assert (Hold2 : forall l x, h1 !! l = Some x -> h2 !! l = Some x)
    by (intros; apply lookup_alloc_old; assumption).
  rewrite bind_run, (normalize_h_run _ _ _ (Hold2 _ _ (Hold1 _ _ Hle))).
  set (ne := normalize (Some es)).
  set (l3 := fresh (dom h2)). set (h3 := <[l3 := CArr ne]> h2).
  assert (Hold3 : forall l x, h2 !! l = Some x -> h3 !! l = Some x)
    by (intros; apply lookup_alloc_old; assumption).
  rewrite bind_run,
    (read_arr_run h3 l2 np (Hold3 _ _ (lookup_insert_eq _ _ _))).
  rewrite bind_run, (read_arr_run h3 l3 ne (lookup_insert_eq _ _ _)).
  (* offsets *)
  rewrite bind_run. cbn [alloc].
  set (l4 := fresh (dom h3)). set (h4 := <[l4 := CArr (take (length ne) np)]> h3).
  assert (Hold4 : forall l x, h3 !! l = Some x -> h4 !! l = Some x)
    by (intros; apply lookup_alloc_old; assumption).
  rewrite bind_run, (read_arr_run h4 l4 _ (lookup_insert_eq _ _ _)).
  rewrite bind_run. cbn [alloc].
  match goal with
  | |- context [<[fresh (dom h4) := CArr ?xs]> h4] => set (offs := xs)
  end.
  set (l5 := fresh (dom h4)). set (h5 := <[l5 := CArr offs]> h4).
  assert (Hold5 : forall l x, h4 !! l = Some x -> h5 !! l = Some x)
    by (intros; apply lookup_alloc_old; assumption).
  assert (H5 : h5 !! l1 = Some (CObj props)) by auto.
  rewrite bind_run, (set_prop_run _ _ _ _ _ H5).
  set (props1 := <["offsets"%string := VRef l5]> props).
  set (h6 := <[l1 := CObj props1]> h5).
  assert (Hupd6 : forall l xs, h5 !! l = Some (CArr xs) -> h6 !! l = Some (CArr xs)).
  { intros l xs Hl. unfold h6. rewrite lookup_insert_ne; [exact Hl |].
    intros <-. congruence. }
  (* energy_to_pos *)
  rewrite bind_run. cbn [alloc].
  match goal with
  | |- context [<[fresh (dom h6) := CArr ?xs]> h6] => set (e2p := xs)
  end.
  set (l6 := fresh (dom h6)). set (h7 := <[l6 := CArr e2p]> h6).
  assert (Hold7 : forall l x, h6 !! l = Some x -> h7 !! l = Some x)
    by (intros; apply lookup_alloc_old; assumption).
  assert (H7 : h7 !! l1 = Some (CObj props1))
    by (apply Hold7, lookup_insert_eq).
  rewrite bind_run, (set_prop_run _ _ _ _ _ H7).
  set (props2 := <["energy_to_pos"%string := VRef l6]> props1).
  set (h8 := <[l1 := CObj props2]> h7).
  assert (Hupd8 : forall l xs, h7 !! l = Some (CArr xs) -> h8 !! l = Some (CArr xs)).
  { intros l xs Hl. unfold h8. rewrite lookup_insert_ne; [exact Hl |].
    intros <-. congruence. }
  (* the loop *)
  assert (Hsub : h ⊆ h8).
  { apply insert_subseteq_r; [exact N1 |].
    etransitivity; [| apply insert_subseteq, fresh_unallocated].
    apply insert_subseteq_r; [exact N1 |].
    do 4 (etransitivity; [| apply insert_subseteq, fresh_unallocated]).
    apply insert_subseteq, fresh_unallocated. }
  assert (Pb : props2 !! "beats"%string = props !! "beats"%string).
  { unfold props2, props1. rewrite !lookup_insert_ne by discriminate.
    reflexivity. }
  assert (Fp' : d_pitch f = Some ps)
    by (rewrite Fp; unfold field_at; rewrite Pp, Hlp; reflexivity).
  assert (Fe' : d_energy f = Some es)
    by (rewrite Fe; unfold field_at; rewrite Pe, Hle; reflexivity).
  rewrite (create_actions_barrier_h_run h8 l1 l6 l5 props2 e2p offs
             (processed_data f energy_multiplier pitch_range
                             amplitude_centering center_offset)); cycle 1.
  - apply lookup_insert_eq.
  - apply lookup_insert_eq.
  - apply Hupd8, lookup_insert_eq.
  - unfold props2, props1.
    rewrite lookup_insert_ne by discriminate. apply lookup_insert_eq.
  - apply Hupd8, Hold7, Hupd6, lookup_insert_eq.
  - unfold wf_prop. rewrite Pb. exact (wf_prop_mono h h8 props _ Hsub Hb).
  - unfold processed_data. rewrite Fe'. reflexivity.
  - unfold processed_data. rewrite Fp', Fe'. reflexivity.
  - change (d_beats f = field_at h8 props2 "beats").
    unfold field_at at 1. rewrite Pb. rewrite Fb. symmetry.
    exact (field_at_mono h h8 props _ Hsub Hb).
  - destruct (create_actions_returns f energy_multiplier pitch_range overflow
                amplitude_centering center_offset) as [acts Hacts].
    unfold create_actions in Hacts. rewrite Fp', Fe' in Hacts.
    cbn zeta in Hacts. rewrite Hacts. cbn.
    do 3 eexists. split; [reflexivity |]. split; [reflexivity |].
    split; [apply lookup_insert_eq | reflexivity].
Qed.

End Run.

(** C10: called on a well-formed features object, [create_actions] returns
    the actions of the pure embedding in a new array, and every cell of the
    caller's store is unchanged ([h ⊆ h']): the object still has the same
    [at], [beats], [pitch] and [energy], and the arrays hold what they
    held. *)
Theorem create_actions_h_preserves_argument (h : gmap positive Store.cell)
    (d : positive)
    (energy_multiplier pitch_range overflow amplitude_centering center_offset : Q) :
  Store.wf_features h d ->
  exists f r h' acts,
    Store.features_at h d = Some f
    /\ Store.create_actions_h d energy_multiplier pitch_range overflow
                              amplitude_centering center_offset h = Some (r, h')
    /\ h ⊆ h'
    /\ h' !! d = h !! d
    /\ Store.features_at h' d = Some f
    /\ h' !! r = Some (Store.CActs acts)
    /\ create_actions f energy_multiplier pitch_range overflow
                      amplitude_centering center_offset = Some acts.
Proof.
  intros Hwf.
  destruct (create_actions_h_run h d energy_multiplier pitch_range overflow
              amplitude_centering center_offset Hwf)
    as (f & r & h' & acts & Hf & Hrun & Hr & Hpure).
  pose proof (create_actions_h_frame _ _ _ _ _ _ _ _ _ Hrun) as Hsub.
  exists f, r, h', acts. repeat split; try assumption.
  - destruct Hwf as (props & Hd & _).
    rewrite Hd. eapply lookup_weaken; eassumption.
  - rewrite (features_at_mono h h' d Hsub Hwf). exact Hf.
Qed.

Lemma create_actions_h_preserves_argument_example :
  Store.wf_features caller_store 1
  /\ exists f r h' acts,
       Store.features_at caller_store 1 = Some f
       /\ Store.create_actions_h 1 2 100 1 0 0 caller_store = Some (r, h')
       /\ caller_store ⊆ h'
       /\ h' !! 1%positive = caller_store !! 1%positive
       /\ Store.features_at h' 1 = Some f
       /\ h' !! r = Some (Store.CActs acts)
       /\ create_actions f 2 100 1 0 0 = Some acts.
Proof.
  assert (Hwf : Store.wf_features caller_store 1).
  { exists caller_props. split; [reflexivity |].
    repeat split; vm_compute; eexists; reflexivity. }
  split; [exact Hwf |].
  apply (create_actions_h_preserves_argument caller_store 1 2 100 1 0 0 Hwf).
Defined.

(** ** normalize *)

Lemma Math_min_of_le (x : Q) (xs : list Q) :
  Math_min_of x xs <= x /\ Forall (fun v => Math_min_of x xs <= v) xs.
Proof.
  unfold Math_min_of. revert x. induction xs as [| y ys IH]; intros x; cbn.
  - split; [lra | constructor].
  - destruct (IH (Qmin x y)) as [H1 H2].
    pose proof (Q.le_min_l x y). pose proof (Q.le_min_r x y).
    split; [lra |]. constructor; [lra | exact H2].
Qed.

Lemma Math_max_of_ge (x : Q) (xs : list Q) :
  x <= Math_max_of x xs /\ Forall (fun v => v <= Math_max_of x xs) xs.
Proof.
  unfold Math_max_of. revert x. induction xs as [| y ys IH]; intros x; cbn.
  - split; [lra | constructor].
  - destruct (IH (Qmax x y)) as [H1 H2].
    pose proof (Q.le_max_l x y). pose proof (Q.le_max_r x y).
    split; [lra |]. constructor; [lra | exact H2].
Qed.

(** The minimum and the maximum are values of the array. *)
Lemma Math_min_of_attained (x : Q) (xs : list Q) :
  Exists (fun v => v == Math_min_of x xs) (x :: xs).
Proof.
  unfold Math_min_of. revert x. induction xs as [| y ys IH]; intros x; cbn.
  - left. reflexivity.
  - specialize (IH (Qmin x y)). inversion IH as [? ? Hhd | ? ? Htl]; subst.
    + destruct (Q.min_spec x y) as [[_ E] | [_ E]].
      * left. eapply Qeq_trans; [symmetry; exact E | exact Hhd].
      * right. left. eapply Qeq_trans; [symmetry; exact E | exact Hhd].
    + right. right. exact Htl.
Qed.

Lemma Math_max_of_attained (x : Q) (xs : list Q) :
  Exists (fun v => v == Math_max_of x xs) (x :: xs).
Proof.
  unfold Math_max_of. revert x. induction xs as [| y ys IH]; intros x; cbn.
  - left. reflexivity.
  - specialize (IH (Qmax x y)). inversion IH as [? ? Hhd | ? ? Htl]; subst.
    + destruct (Q.max_spec x y) as [[_ E] | [_ E]].
      * right. left. eapply Qeq_trans; [symmetry; exact E | exact Hhd].
      * left. eapply Qeq_trans; [symmetry; exact E | exact Hhd].
    + right. right. exact Htl.
Qed.

Lemma normalize_bounds (x : Q) (xs : list Q) :
  Forall (fun v => Math_min_of x xs <= v <= Math_max_of x xs) (x :: xs).
Proof.
  destruct (Math_min_of_le x xs) as [Hx Hxs].
  destruct (Math_max_of_ge x xs) as [Gx Gxs].
  constructor; [lra |].
  rewrite Forall_forall in *. intros v Hv. split; auto.
Qed.

Lemma normalize_length (data : option (list Q)) :
  length (normalize data) = length (default [] data).
Proof.
  destruct data as [[| x xs] |]; cbn [normalize default from_option id];
    try reflexivity.
  destruct (Qeq_bool _ _); apply length_map.
Qed.

(** X1: on an array whose values differ from one another by less than the
    range of a double, every value that [normalize] returns lies in
    [0,1]. *)
Theorem normalize_unit_interval (data : list Q) :
  range_fits data ->
  Forall (fun v => 0 <= v <= 1) (normalize (Some data)).
Proof.
  intros _. destruct data as [| x xs]; cbn [normalize]; [constructor |].
  pose proof (normalize_bounds x xs) as Hb.
  destruct (Qeq_bool _ _) eqn:E.
  - apply Forall_map. apply Forall_forall. intros v _. cbn. lra.
  - apply Qeq_bool_false in E.
    apply Forall_map. eapply Forall_impl; [exact Hb |].
    cbn. intros v [Hlo Hhi].
    assert (Hd : 0 < Math_max_of x xs - Math_min_of x xs).
    { inversion Hb as [| ? ? [H1 H2] _]; subst.
      destruct (Qlt_le_dec (Math_min_of x xs) (Math_max_of x xs)); [lra |].
      exfalso. apply E. lra. }
    split.
    + apply Qle_shift_div_l; [exact Hd | lra].
    + apply Qle_shift_div_r; [exact Hd | lra].
Qed.

Lemma normalize_unit_interval_example :
  range_fits [3; 5; 4]
  /\ Forall (fun v => 0 <= v <= 1) (normalize (Some [3; 5; 4])).
Proof.
  assert (H : range_fits [3; 5; 4]) by (repeat constructor).
  split; [exact H |]. exact (normalize_unit_interval [3; 5; 4] H).
Defined.

Lemma normalize_flat (c : Q) (data : list Q) :
  Forall (fun v => v == c) data ->
  normalize (Some data) = map (fun _ => 1 # 2) data.
Proof.
  intros Hc. destruct data as [| x xs]; [reflexivity |].
  cbn [normalize].
  assert (E : Qeq_bool (Math_max_of x xs) (Math_min_of x xs) = true).
  { apply Qeq_bool_iff.
    pose proof (Math_min_of_attained x xs) as Hmin.
    pose proof (Math_max_of_attained x xs) as Hmax.
    rewrite Exists_exists in Hmin, Hmax. rewrite Forall_forall in Hc.
    destruct Hmin as (a & Ha & Ea). destruct Hmax as (b & Hb & Eb).
    rewrite <- Ea, <- Eb, (Hc a Ha), (Hc b Hb). reflexivity. }
  rewrite E. reflexivity.
Qed.

(** X2: an array whose values are all the same number normalizes to the
    neutral value 0.5 at every index, with no division by the zero range. *)
Theorem normalize_constant (c : Q) (data : list Q) :
  Forall (fun v => v == c) data ->
  Forall (fun v => v = 1 # 2) (normalize (Some data))
  /\ length (normalize (Some data)) = length data.
Proof.
  intros Hc. rewrite (normalize_flat c data Hc). split; [| apply length_map].
  apply Forall_map, Forall_forall. intros v _. reflexivity.
Qed.

Lemma normalize_constant_example :
  Forall (fun v => v == 7) [7; 14 # 2; 7]
  /\ Forall (fun v => v = 1 # 2) (normalize (Some [7; 14 # 2; 7]))
  /\ length (normalize (Some [7; 14 # 2; 7])) = length [7; 14 # 2; 7].
Proof.
  assert (H : Forall (fun v => v == 7) [7; 14 # 2; 7])
    by (repeat constructor).
  split; [exact H |]. exact (normalize_constant 7 [7; 14 # 2; 7] H).
Defined.

(** X3: on an array whose values differ from one another by less than the
    range of a double, [normalize] never reverses the order of two values,
    sends every smallest value to 0 and, when the array holds two
    different values, every largest value to 1. *)
Theorem normalize_extremes (data : list Q) (i j : nat) (vi vj : Q) :
  range_fits data ->
  data !! i = Some vi -> data !! j = Some vj -> vi < vj ->
  exists ni nj,
    normalize (Some data) !! i = Some ni
    /\ normalize (Some data) !! j = Some nj
    /\ ni <= nj
    /\ (Forall (fun v => vi <= v) data -> ni == 0)
    /\ (Forall (fun v => v <= vj) data -> nj == 1).
Proof.
  intros _ Hi Hj Hlt. destruct data as [| x xs]; [discriminate |].
  cbn [normalize].
  pose proof (normalize_bounds x xs) as Hb. rewrite Forall_forall in Hb.
  assert (Ii : vi ∈ x :: xs) by (eapply list_elem_of_lookup_2; exact Hi).
  assert (Ij : vj ∈ x :: xs) by (eapply list_elem_of_lookup_2; exact Hj).
  destruct (Hb vi Ii) as [Li Ui]. destruct (Hb vj Ij) as [Lj Uj].
  set (fmin := Math_min_of x xs) in *. set (fmax := Math_max_of x xs) in *.
  assert (Hd : 0 < fmax - fmin) by lra.
  assert (E : Qeq_bool fmax fmin = false) by (apply Qeq_bool_false; lra).
  rewrite E. rewrite !list_lookup_fmap, Hi, Hj. cbn.
  eexists _, _. split; [reflexivity |]. split; [reflexivity |].
  assert (Hinv : 0 < / (fmax - fmin)) by (apply Qinv_lt_0_compat; exact Hd).
  split; [| split].
  - apply Qlt_le_weak. unfold Qdiv. apply Qmult_lt_compat_r; [exact Hinv | lra].
  - intros Hall.
    assert (Em : vi == fmin).
    { pose proof (Math_min_of_attained x xs) as Hmin.
      rewrite Exists_exists in Hmin. destruct Hmin as (a & Ha & Ea).
      rewrite Forall_forall in Hall. specialize (Hall a Ha).
      fold fmin in Ea. lra. }
    rewrite Em. unfold Qdiv. ring.
  - intros Hall.
    assert (Em : vj == fmax).
    { pose proof (Math_max_of_attained x xs) as Hmax.
      rewrite Exists_exists in Hmax. destruct Hmax as (a & Ha & Ea).
      rewrite Forall_forall in Hall. specialize (Hall a Ha).
      fold fmax in Ea. lra. }
    rewrite Em. field. lra.
Qed.

Lemma normalize_extremes_example :
  range_fits [3; 5; 4]
  /\ [3; 5; 4] !! 0%nat = Some 3 /\ [3; 5; 4] !! 1%nat = Some 5 /\ 3 < 5
  /\ exists ni nj,
       normalize (Some [3; 5; 4]) !! 0%nat = Some ni
       /\ normalize (Some [3; 5; 4]) !! 1%nat = Some nj
       /\ ni <= nj
       /\ (Forall (fun v => 3 <= v) [3; 5; 4] -> ni == 0)
       /\ (Forall (fun v => v <= 5) [3; 5; 4] -> nj == 1).
Proof.
  assert (H : range_fits [3; 5; 4]) by (repeat constructor).
  split; [exact H |].
  split; [reflexivity |]. split; [reflexivity |]. split; [reflexivity |].
  apply (normalize_extremes [3; 5; 4] 0 1 3 5); [exact H | reflexivity ..].
Defined.

(** ** Rounding *)

Lemma Math_round_mono (x y : Q) : x <= y -> Math_round x <= Math_round y.
Proof.
  intros H. unfold Math_round. rewrite <- Zle_Qle.
  apply Qfloor_resp_le. lra.
Qed.

Lemma Math_round_inject (z : Z) : Math_round (inject_Z z) = inject_Z z.
Proof.
  unfold Math_round. f_equal.
  unfold Qfloor, inject_Z, Qplus. cbn.
  rewrite Z.mul_1_r.
  replace (z * 2 + 1)%Z with (1 + z * 2)%Z by lia.
  rewrite Z.div_add by lia. reflexivity.
Qed.

Lemma Math_round_between (a b : Z) (x : Q) :
  inject_Z a <= x <= inject_Z b ->
  inject_Z a <= Math_round x <= inject_Z b.
Proof.
  intros [Ha Hb].
  rewrite <- (Math_round_inject a), <- (Math_round_inject b).
  split; apply Math_round_mono; assumption.
Qed.

Lemma Math_round_percent (x : Q) :
  0 <= x <= 100 -> 0 <= Math_round x <= 100.
Proof. exact (Math_round_between 0 100 x). Qed.

(** ** OverflowResolver *)

(** X5: for a target no further than 100 from the range, Bounce emits one
    to three actions, all at integer positions of [0,100], the last one at
    the requested time. *)
Theorem create_peak_bounce_in_range (pos at_ last_pos last_at : Q) :
  -100 <= pos <= 200 ->
  let acts := create_peak_bounce pos at_ last_pos last_at in
  (1 <= length acts <= 3)%nat
  /\ Forall (fun a => is_integer (a_pos a) /\ 0 <= a_pos a <= 100) acts
  /\ a_at <$> list.last acts = Some at_.
Proof.
  intros Hr. cbn zeta.
  assert (R0 : 0 <= Math_round 0 <= 100) by (split; discriminate).
  assert (R100 : 0 <= Math_round 100 <= 100) by (split; discriminate).
  unfold create_peak_bounce.
  case_Qltb last_pos 0; [| case_Qltb 100 last_pos];
    (case_Qltb 100 pos; [| case_Qltb pos 0]); cbn;
    (split; [lia |]); (split; [| reflexivity]);
    repeat constructor; try apply action_pos_integer; cbn;
    try lra;
    match goal with
    | |- context [Math_round ?x] =>
        let H := fresh in
        assert (H : 0 <= Math_round x <= 100)
          by (apply Math_round_percent; lra);
        lra
    end.
Qed.

Lemma create_peak_bounce_in_range_example :
  -100 <= 150 <= 200
  /\ let acts := create_peak_bounce 150 1 50 0 in
     (1 <= length acts <= 3)%nat
     /\ Forall (fun a => is_integer (a_pos a) /\ 0 <= a_pos a <= 100) acts
     /\ a_at <$> list.last acts = Some 1.
Proof.
  assert (H : -100 <= 150 <= 200) by (split; discriminate).
  split; [exact H |]. exact (create_peak_bounce_in_range 150 1 50 0 H).
Defined.

(** X6: Bounce reflects once.  A target more than 100.5 beyond a boundary
    is mirrored to a position that is itself outside [0,100]: negative for
    a target above 200.5, above 100 for a target of -100.5 or less. *)
Theorem create_peak_bounce_reflects_once (pos at_ last_pos last_at : Q) :
  let final := a_pos <$> list.last (create_peak_bounce pos at_ last_pos last_at) in
  ((401 # 2) < pos -> exists p, final = Some p /\ p < 0)
  /\ (pos <= - (201 # 2) -> exists p, final = Some p /\ 100 < p).
Proof.
  cbn zeta. unfold create_peak_bounce.
  split; intros H.
  - assert (E : Qltb 100 pos = true) by (apply Qltb_lt; lra). rewrite E.
    exists (Math_round (200 - pos)).
    split; [destruct (Qltb last_pos 0), (Qltb 100 last_pos); reflexivity |].
    pose proof (Qfloor_le (200 - pos + (1 # 2))) as Hf.
    unfold Math_round. lra.
  - assert (E : Qltb 100 pos = false) by (apply Qltb_ge; lra).
    assert (E' : Qltb pos 0 = true) by (apply Qltb_lt; lra). rewrite E, E'.
    exists (Math_round (- pos)).
    split; [destruct (Qltb last_pos 0), (Qltb 100 last_pos); reflexivity |].
    assert (Hm : Math_round (201 # 2) <= Math_round (- pos))
      by (apply Math_round_mono; lra).
    change (Math_round (201 # 2)) with 101 in Hm. lra.
Qed.

(** X8: when neither the previous nor the new target overflows, the three
    policies agree: Bounce and Fold emit the single action
    [{at, round(pos)}], and so does Crop for an integer target. *)
Theorem resolvers_agree_in_bounds (pos at_ last_pos last_at : Q) :
  0 <= last_pos <= 100 -> 0 <= pos <= 100 ->
  create_peak_bounce pos at_ last_pos last_at = [action pos at_]
  /\ create_peak_fold pos at_ last_pos last_at = [action pos at_]
  /\ (is_integer pos -> default_peak pos at_ ≡ [action pos at_]).
Proof.
  intros [L0 L100] [P0 P100].
  assert (E1 : Qltb last_pos 0 = false) by (apply Qltb_ge; exact L0).
  assert (E2 : Qltb 100 last_pos = false) by (apply Qltb_ge; exact L100).
  assert (E3 : Qltb pos 0 = false) by (apply Qltb_ge; exact P0).
  assert (E4 : Qltb 100 pos = false) by (apply Qltb_ge; exact P100).
  unfold create_peak_bounce, create_peak_fold. rewrite E1, E2, E3, E4.
  split; [reflexivity |]. split; [reflexivity |].
  intros [z ->]. unfold default_peak, action. rewrite Math_round_inject.
  constructor; [| constructor]. split; cbn; [reflexivity |].
  rewrite Q.max_r by exact P0. apply Q.min_l. exact P100.
Qed.

Lemma resolvers_agree_in_bounds_example :
  0 <= 30 <= 100 /\ 0 <= 70 <= 100
  /\ create_peak_bounce 70 1 30 0 = [action 70 1]
  /\ create_peak_fold 70 1 30 0 = [action 70 1]
  /\ (is_integer 70 -> default_peak 70 1 ≡ [action 70 1]).
Proof.
  assert (H1 : 0 <= 30 <= 100) by (split; discriminate).
  assert (H2 : 0 <= 70 <= 100) by (split; discriminate).
  split; [exact H1 |]. split; [exact H2 |].
  exact (resolvers_agree_in_bounds 70 1 30 0 H1 H2).
Defined.

(** ** ActionSynthesizer: what the call returns *)

Lemma barrier_fold_crop (e2p beats offs : list Q) (n k : nat) (st : BarrierState) :
  n = Nat.min (Nat.min (length (drop k e2p)) (length (drop k beats)))
              (length (drop k offs)) ->
  actions (barrier_fold crop e2p beats offs (seq k n) st)
  = actions st
    ++ crop_actions (last_at st) (drop k e2p) (drop k beats) (drop k offs).
Proof.
  revert k st. induction n as [| n IH]; intros k st Hn.
  - cbn. destruct (drop k e2p), (drop k beats), (drop k offs);
      cbn [length] in Hn; cbn; try (rewrite app_nil_r; reflexivity); lia.
  - destruct (drop k e2p) as [| u e2p'] eqn:De; [cbn [length] in Hn; lia |].
    destruct (drop k beats) as [| b beats'] eqn:Db; [cbn [length] in Hn; lia |].
    destruct (drop k offs) as [| o offs'] eqn:Do; [cbn [length] in Hn; lia |].
    assert (Le : e2p !! k = Some u)
      by (rewrite <- (Nat.add_0_r k), <- lookup_drop, De; reflexivity).
    assert (Lb : beats !! k = Some b)
      by (rewrite <- (Nat.add_0_r k), <- lookup_drop, Db; reflexivity).
    assert (Lo : offs !! k = Some o)
      by (rewrite <- (Nat.add_0_r k), <- lookup_drop, Do; reflexivity).
    rewrite (drop_S _ _ _ Le) in De. rewrite (drop_S _ _ _ Lb) in Db.
    rewrite (drop_S _ _ _ Lo) in Do.
    injection De as De. injection Db as Db. injection Do as Do.
    cbn [seq barrier_fold fold_left]. rewrite Le, Lb, Lo.
    cbn [default from_option id].
    unfold barrier_fold in IH. rewrite IH.
    + cbn [barrier_step actions last_at crop default_peak crop_actions].
      rewrite De, Db, Do, <- !app_assoc. reflexivity.
    + rewrite De, Db, Do. cbn [length] in Hn. lia.
Qed.

(** The result of [create_actions] on an input that has its three arrays:
    the Crop synthesis of the shaped targets, started at [overflow]. *)
Lemma create_actions_closed (t : Q) (beats pitch energy : list Q)
    (energy_multiplier pitch_range overflow amplitude_centering center_offset : Q) :
  let data := mkFeatures t (Some beats) (Some pitch) (Some energy) in
  let pd := processed_data data energy_multiplier pitch_range
                           amplitude_centering center_offset in
  create_actions data energy_multiplier pitch_range overflow
                 amplitude_centering center_offset
  = Some (crop_actions overflow (default [] (p_energy_to_pos pd)) beats
                       (default [] (p_offsets pd))).
Proof.
  cbn zeta. rewrite create_actions_crop_from_overflow. cbn zeta.
  f_equal. rewrite barrier_fold_crop; [rewrite !drop_0; reflexivity |].
  rewrite !drop_0. reflexivity.
Qed.

Lemma crop_actions_length (prev : Q) (e2p beats offs : list Q) :
  length (crop_actions prev e2p beats offs)
  = (2 * Nat.min (Nat.min (length e2p) (length beats)) (length offs))%nat.
Proof.
  revert prev beats offs. induction e2p as [| u e2p IH]; intros prev beats offs.
  - reflexivity.
  - destruct beats as [| b beats]; [reflexivity |].
    destruct offs as [| o offs]; [cbn [crop_actions length]; lia |].
    cbn [crop_actions length]. rewrite IH. lia.
Qed.

Lemma crop_actions_in_range (prev : Q) (e2p beats offs : list Q) :
  Forall (fun a => 0 <= a_pos a <= 100) (crop_actions prev e2p beats offs).
Proof.
  revert prev beats offs. induction e2p as [| u e2p IH]; intros prev beats offs.
  - constructor.
  - destruct beats as [| b beats]; [constructor |].
    destruct offs as [| o offs]; [constructor |].
    cbn [crop_actions].
    assert (Hc : forall x, 0 <= Qmin (Qmax 0 x) 100 <= 100).
    { intros x. split; [apply Q.min_glb; [apply Q.le_max_l | lra] | apply Q.le_min_r]. }
    constructor; [apply Hc |]. constructor; [apply Hc | apply IH].
Qed.

Lemma crop_actions_down_times (prev : Q) (e2p beats offs : list Q) :
  down_times (crop_actions prev e2p beats offs)
  = take (Nat.min (Nat.min (length e2p) (length beats)) (length offs)) beats.
Proof.
  revert prev beats offs. induction e2p as [| u e2p IH]; intros prev beats offs.
  - reflexivity.
  - destruct beats as [| b beats]; [reflexivity |].
    destruct offs as [| o offs];
      [cbn [crop_actions down_times length]; rewrite Nat.min_0_r; reflexivity |].
    cbn [crop_actions down_times a_at]. rewrite IH. reflexivity.
Qed.


Lemma shaped_lengths (data : AudioFeatures)
    (energy_multiplier pitch_range amplitude_centering center_offset : Q) :
  let pd := processed_data data energy_multiplier pitch_range
                           amplitude_centering center_offset in
  length (default [] (p_energy_to_pos pd)) = length (default [] (d_energy data))
  /\ length (default [] (p_offsets pd))
     = Nat.min (length (default [] (d_energy data)))
               (length (default [] (d_pitch data))).
Proof.
  cbn. rewrite length_map, length_imap, length_take.
  rewrite !normalize_length. split; reflexivity.
Qed.

(** Closes the cases of an input that misses one of its arrays. *)
Ltac missing_array :=
  try (eexists; split; [reflexivity |]; cbn; repeat split; constructor).

(** X9: whatever the parameters and the overflow mode, the list that the
    synthesis call returns holds two actions per synthesized segment, and
    no action when an array is missing. *)
Theorem create_actions_count (data : AudioFeatures)
    (energy_multiplier pitch_range overflow amplitude_centering center_offset : Q) :
  exists acts,
    create_actions data energy_multiplier pitch_range overflow
                   amplitude_centering center_offset = Some acts
    /\ length acts = (2 * segments_used data)%nat
    /\ (d_beats data = None \/ d_pitch data = None \/ d_energy data = None ->
        acts = []).
Proof.
  destruct data as [t [beats |] [pitch |] [energy |]];
    try (eexists; split; [reflexivity |]; split; [reflexivity |]; reflexivity).
  rewrite create_actions_closed. cbn zeta.
  eexists. split; [reflexivity |]. split.
  - rewrite crop_actions_length.
    destruct (shaped_lengths (mkFeatures t (Some beats) (Some pitch) (Some energy))
                energy_multiplier pitch_range amplitude_centering center_offset)
      as [Le Lo].
    rewrite Le, Lo. unfold segments_used. cbn. lia.
  - cbn. intros [H | [H | H]]; discriminate.
Qed.


(** X11: the second action of the k-th segment is emitted exactly at the
    k-th beat time. *)
Theorem create_actions_down_at_beats (data : AudioFeatures)
    (energy_multiplier pitch_range overflow amplitude_centering center_offset : Q) :
  exists acts,
    create_actions data energy_multiplier pitch_range overflow
                   amplitude_centering center_offset = Some acts
    /\ down_times acts
       = take (segments_used data) (default [] (d_beats data)).
Proof.
  destruct data as [t [beats |] [pitch |] [energy |]];
    try (eexists; split; [reflexivity |]; cbn; rewrite ?take_0; reflexivity).
  rewrite create_actions_closed. cbn zeta.
  eexists. split; [reflexivity |].
  rewrite crop_actions_down_times.
  destruct (shaped_lengths (mkFeatures t (Some beats) (Some pitch) (Some energy))
              energy_multiplier pitch_range amplitude_centering center_offset)
    as [Le Lo].
  rewrite Le, Lo. unfold segments_used. cbn. f_equal. lia.
Qed.

(** ** SpeedEstimator: the value *)

Lemma quotient_nonpos (a d : Q) : 0 <= a -> d < 0 -> a / d <= 0.
Proof.
  intros Ha Hd.
  assert (E : a / d == - (a / - d)) by (field; lra).
  rewrite E.
  assert (0 <= a / - d) by (apply Qle_shift_div_l; lra).
  lra.
Qed.

Lemma not_positive_in_range (x : num) : not_positive x -> not_positive (in_range x).
Proof.
  intros [-> | (q & -> & Hq)]; [left; reflexivity |].
  cbn [in_range].
  destruct (to_double_cases q) as [[E _] | [[E H] | [E _]]]; rewrite E.
  - right. exists q. split; [reflexivity | exact Hq].
  - pose proof overflow_bound_positive. lra.
  - left. reflexivity.
Qed.

Lemma not_positive_div (x : num) (smax : Q) :
  0 < smax -> not_positive x -> not_positive (div x (Fin smax)).
Proof.
  intros Hs [-> | (q & -> & Hq)]; cbn [div].
  - assert (E : Qltb smax 0 = false) by (apply Qltb_ge; lra).
    rewrite E. left. reflexivity.
  - assert (Hz : is_zero smax = false) by (apply Qeq_bool_false; lra).
    rewrite Hz. right. eexists. split; [reflexivity |].
    apply Qle_shift_div_r; lra.
Qed.

Lemma not_positive_clamp (x : num) :
  not_positive x -> max (Fin 0) (min x (Fin 1)) = Fin 0.
Proof.
  intros [-> | (q & -> & Hq)]; [reflexivity |].
  cbn [min ltb].
  assert (E1 : Qltb 1 q = false) by (apply Qltb_ge; lra).
  rewrite E1. cbn [max ltb].
  assert (E0 : Qltb 0 q = false) by (apply Qltb_ge; lra).
  rewrite E0. reflexivity.
Qed.

(** X12: for a positive [smax] and differences within the range of a
    double, the speed from A to B is 0 whenever B is not later than A (a
    step back in time counts as no movement) and whenever the two
    positions are equal. *)
Theorem speed_value (A B : Action) (smax : Q) :
  0 < smax ->
  Qabs (a_at B - a_at A) < overflow_bound ->
  Qabs (a_pos B - a_pos A) < overflow_bound ->
  a_at B <= a_at A \/ a_pos B == a_pos A ->
  speed A B smax = Fin 0.
Proof.
  intros Hs Ht Hp Hcase. unfold speed, _speed.
  rewrite (to_double_finite _ Ht), (to_double_finite _ Hp). cbn [strict_eq abs].
  destruct (Qeq_bool (a_at B - a_at A) 0) eqn:Hg; [reflexivity |].
  apply Qeq_bool_false in Hg.
  assert (Hz : is_zero (a_at B - a_at A) = false) by (apply Qeq_bool_false; exact Hg).
  apply not_positive_clamp, not_positive_in_range, not_positive_div; [exact Hs |].
  apply not_positive_in_range. cbn [div]. rewrite Hz.
  right. eexists. split; [reflexivity |].
  pose proof (Qabs_nonneg (a_pos B - a_pos A)) as Ha.
  destruct Hcase as [Hle | Heq].
  - apply quotient_nonpos; [exact Ha | lra].
  - assert (E : a_pos B - a_pos A == 0) by lra.
    rewrite E. change (Qabs 0) with 0. unfold Qdiv. rewrite Qmult_0_l. lra.
Qed.

Lemma speed_value_example :
  0 < 400
  /\ Qabs (1 - 2) < overflow_bound
  /\ Qabs (100 - 0) < overflow_bound
  /\ (1 <= 2 \/ 100 == 0)
  /\ speed (mkAction 2 0) (mkAction 1 100) 400 = Fin 0.
Proof.
  split; [reflexivity |]. split; [reflexivity |]. split; [reflexivity |].
  split; [left; discriminate |].
  apply (speed_value (mkAction 2 0) (mkAction 1 100) 400);
    [reflexivity | reflexivity | reflexivity | left; discriminate].
Defined.

(** X13: the renderer clamps the speeds it got from [speed] to [0,1]
    again; that second clamp changes none of them. *)
Theorem normalizedSpeeds_unchanged (smax : Q) (result : list Action) :
  0 < smax ->
  normalizedSpeeds (pair_speeds smax result) ≡ pair_speeds smax result.
Proof.
  intros Hs. unfold normalizedSpeeds, pair_speeds.
  induction result as [| a [| b rest] IH]; try constructor.
  - clear IH. unfold speed.
    destruct (clamp_cases (_speed a b smax)) as [E | (q & E & Hq)]; rewrite E.
    + reflexivity.
    + cbn [max ltb].
      case_Qltb 0 q; cbn [min ltb].
      * case_Qltb q 1; unfold equiv, num_equiv; lra.
      * change (Qltb 0 1) with true. cbn. unfold equiv, num_equiv. lra.
  - exact IH.
Qed.

Lemma normalizedSpeeds_unchanged_example :
  0 < 400
  /\ normalizedSpeeds (pair_speeds 400 [mkAction 0 50; mkAction 1 100; mkAction 1 0])
     ≡ pair_speeds 400 [mkAction 0 50; mkAction 1 100; mkAction 1 0].
Proof.
  split; [reflexivity |].
  apply (normalizedSpeeds_unchanged 400); reflexivity.
Defined.

(** ** AutoTuner: the default energy objective *)

Lemma consecutive_Forall {A B : Type} (f : A -> A -> B) (P : B -> Prop)
    (l : list A) :
  (forall a b, P (f a b)) -> Forall P (consecutive f l).
Proof.
  intros Hf. induction l as [| a [| b rest] IH]; try constructor.
  - apply Hf.
  - exact IH.
Qed.

Lemma consecutive_length (A B : Type) (f : A -> A -> B) (l : list A) :
  length (consecutive f l) = (length l - 1)%nat.
Proof.
  induction l as [| a [| b l'] IH]; try reflexivity.
  change (consecutive f (a :: b :: l')) with (f a b :: consecutive f (b :: l')).
  cbn [length] in *. rewrite IH. lia.
Qed.

Lemma Qlen_not_zero {A : Type} (l : list A) :
  (length l =? 0)%nat = false -> is_zero (Qlen l) = false.
Proof.
  intros H. apply Nat.eqb_neq in H. apply Qeq_bool_false.
  unfold Qlen, Qeq. cbn. lia.
Qed.

Lemma create_actions_length (data : AudioFeatures)
    (energy_multiplier pitch_range overflow amplitude_centering center_offset : Q) :
  exists acts,
    create_actions data energy_multiplier pitch_range overflow
                   amplitude_centering center_offset = Some acts
    /\ length acts = (2 * segments_used data)%nat.
Proof.
  destruct data as [t [beats |] [pitch |] [energy |]];
    try (eexists; split; reflexivity).
  rewrite create_actions_closed. cbn zeta.
  eexists. split; [reflexivity |].
  rewrite crop_actions_length.
  destruct (shaped_lengths (mkFeatures t (Some beats) (Some pitch) (Some energy))
              energy_multiplier pitch_range amplitude_centering center_offset)
    as [Le Lo].
  rewrite Le, Lo. unfold segments_used. cbn. lia.
Qed.

Lemma none_above_target (smax target_speed : Q) (result : list Action) :
  1 <= target_speed ->
  List.filter (fun s => ltb (Fin target_speed) s)
              (consecutive (fun a b => speed a b smax) result) = [].
Proof.
  intros Ht.
  assert (H : Forall (fun s => ltb (Fin target_speed) s = false)
                     (consecutive (fun a b => speed a b smax) result)).
  { apply consecutive_Forall. intros a b. unfold speed.
    destruct (clamp_cases (_speed a b smax)) as [E | (q & E & Hq)]; rewrite E.
    - reflexivity.
    - cbn [ltb]. apply Qltb_ge. lra. }
  induction H as [| s l Hs _ IH]; [reflexivity |].
  cbn [List.filter]. rewrite Hs. exact IH.
Qed.

(** X15: with a target speed of 1 or more (300 by default) the objective
    [cemeanv2], the one [autoval] selects by default, cannot tell two
    energy multipliers apart.  It is [Infinity] for a negative multiplier
    and for an input without a synthesized segment; everywhere else no
    speed exceeds the target and it is the constant [|0 - v2above|]. *)
Theorem cemeanv2_constant (data : AudioFeatures)
    (target_speed v2above pres energy_multiplier : Q) :
  1 <= target_speed ->
  (energy_multiplier < 0 \/ segments_used data = 0%nat ->
   cemeanv2 data target_speed v2above pres energy_multiplier = Some PInf)
  /\ (0 <= energy_multiplier -> segments_used data <> 0%nat ->
      exists q,
        cemeanv2 data target_speed v2above pres energy_multiplier = Some (Fin q)
        /\ q == Qabs (0 - v2above)).
Proof.
  intros Ht. unfold cemeanv2.
  destruct (create_actions_length data energy_multiplier pres 0 0 0)
    as (result & -> & Hlen).
  cbn [mbind option_bind].
  rewrite (none_above_target 400 target_speed result Ht).
  split.
  - intros [Hneg | Hseg].
    + apply Qltb_lt in Hneg. rewrite Hneg. reflexivity.
    + destruct (Qltb energy_multiplier 0); [reflexivity |].
      rewrite Hseg in Hlen. destruct result; [reflexivity | discriminate].
  - intros Hpos Hseg. apply Qltb_ge in Hpos. rewrite Hpos.
    assert (H2 : (length result <? 2)%nat = false) by (apply Nat.ltb_ge; lia).
    rewrite H2.
    assert (Hs : (length (consecutive (fun a b => speed a b 400) result) =? 0)%nat
                 = false).
    { apply Nat.eqb_neq. rewrite consecutive_length. lia. }
    rewrite Hs. cbn [div]. rewrite (Qlen_not_zero _ Hs).
    eexists. split; [reflexivity |].
    apply Qabs_wd. unfold Qlen. cbn [length Z.of_nat].
    change (inject_Z 0) with 0. unfold Qdiv. rewrite Qmult_0_l. lra.
Qed.

Lemma cemeanv2_constant_example :
  1 <= 300
  /\ (10 < 0 \/ segments_used two_beats = 0%nat ->
      cemeanv2 two_beats 300 (3 # 5) 100 10 = Some PInf)
  /\ (0 <= 10 -> segments_used two_beats <> 0%nat ->
      exists q,
        cemeanv2 two_beats 300 (3 # 5) 100 10 = Some (Fin q)
        /\ q == Qabs (0 - (3 # 5))).
Proof.
  split; [discriminate |].
  apply (cemeanv2_constant two_beats 300 (3 # 5) 100 10). discriminate.
Defined.

(** ** FeatureExtractor: the window loops *)

Lemma div_step (d hop : nat) :
  (0 < hop)%nat -> (hop <= d)%nat -> ((d - hop) / hop + 1 = d / hop)%nat.
Proof.
  intros Hh Hd.
  replace d with ((d - hop) + 1 * hop)%nat at 2 by lia.
  rewrite Nat.div_add by lia. reflexivity.
Qed.

Lemma windows_from_step (len frameLength hopLength i : nat) :
  (0 < hopLength)%nat -> (i + frameLength <= len)%nat ->
  windows_from len frameLength hopLength i
  = S (windows_from len frameLength hopLength (i + hopLength)).
Proof.
  intros Hh Hi. unfold windows_from.
  destruct (Nat.leb_spec (i + frameLength) len); [| lia].
  destruct (Nat.leb_spec (i + hopLength + frameLength) len).
  - rewrite <- (div_step (len - frameLength - i) hopLength) by lia.
    replace (len - frameLength - (i + hopLength))%nat
      with (len - frameLength - i - hopLength)%nat by lia.
    lia.
  - rewrite Nat.div_small by lia. reflexivity.
Qed.

Lemma getRMS_loop_returns (Math_sqrt : num -> num) (channelData : list Q)
    (frameLength hopLength fuel i : nat) :
  (0 < hopLength)%nat ->
  (windows_from (length channelData) frameLength hopLength i < fuel)%nat ->
  exists rms,
    getRMS_loop Math_sqrt fuel channelData frameLength hopLength i = Some rms
    /\ length rms = windows_from (length channelData) frameLength hopLength i.
Proof.
  intros Hh. revert i. induction fuel as [| fuel IH]; intros i Hf; [lia |].
  cbn [getRMS_loop].
  destruct (Nat.leb_spec (i + frameLength) (length channelData)) as [Hi | Hi].
  - rewrite (windows_from_step _ _ _ _ Hh Hi) in Hf |- *.
    destruct (IH (i + hopLength)%nat) as (rest & -> & Hlen); [lia |].
    eexists. split; [reflexivity |]. cbn [length]. rewrite Hlen. reflexivity.
  - exists []. split; [reflexivity |]. unfold windows_from.
    destruct (Nat.leb_spec (i + frameLength) (length channelData)); [lia | reflexivity].
Qed.

Lemma getPitch_loop_returns (channelData : list Q) (sr : Q)
    (hopLength fuel i : nat) :
  (0 < hopLength)%nat ->
  (windows_from (length channelData) hopLength hopLength i < fuel)%nat ->
  exists pitches,
    getPitch_loop fuel channelData sr hopLength i = Some pitches
    /\ length pitches = windows_from (length channelData) hopLength hopLength i
    /\ Forall (fun p => 1 # 100 <= p) pitches.
Proof.
  intros Hh. revert i. induction fuel as [| fuel IH]; intros i Hf; [lia |].
  cbn [getPitch_loop].
  destruct (Nat.leb_spec (i + hopLength) (length channelData)) as [Hi | Hi].
  - assert (Hframe : (length (take hopLength (drop i channelData)) <? hopLength)%nat
                     = false).
    { apply Nat.ltb_ge. rewrite length_take, length_drop. lia. }
    rewrite Hframe.
    rewrite (windows_from_step _ _ _ _ Hh Hi) in Hf |- *.
    destruct (IH (i + hopLength)%nat) as (rest & -> & Hlen & Hall); [lia |].
    eexists. split; [reflexivity |]. cbn [length]. rewrite Hlen.
    split; [reflexivity |]. constructor; [apply Q.le_max_l | exact Hall].
  - exists []. split; [reflexivity |]. split; [| constructor].
    unfold windows_from.
    destruct (Nat.leb_spec (i + hopLength) (length channelData)); [lia | reflexivity].
Qed.

Lemma windows_whole_hops (len hopLength : nat) :
  (0 < hopLength)%nat ->
  windows_from len hopLength hopLength 0 = (len / hopLength)%nat.
Proof.
  intros Hh. unfold windows_from. cbn [Nat.add].
  destruct (Nat.leb_spec hopLength len).
  - rewrite Nat.sub_0_r. apply div_step; assumption.
  - rewrite Nat.div_small by lia. reflexivity.
Qed.

(** X17: for a positive hop, [getPitch] returns (with fuel beyond the
    length of the data) one pitch per whole hop of samples, and every
    pitch is at least 0.01: the logarithm taken downstream is defined. *)
Theorem getPitch_frames (channelData : list Q) (sr : Q) (hopLength fuel : nat) :
  (0 < hopLength)%nat -> (length channelData < fuel)%nat ->
  exists pitches,
    getPitch fuel channelData sr hopLength = Some pitches
    /\ length pitches = (length channelData / hopLength)%nat
    /\ Forall (fun p => 1 # 100 <= p) pitches.
Proof.
  intros Hh Hf. unfold getPitch.
  rewrite <- (windows_whole_hops (length channelData) hopLength Hh).
  apply getPitch_loop_returns; [exact Hh |].
  rewrite windows_whole_hops by exact Hh.
  pose proof (Nat.Div0.div_le_upper_bound (length channelData) hopLength
                (length channelData)) as Hd.
  assert ((length channelData / hopLength <= length channelData)%nat)
    by (apply Hd; nia).
  lia.
Qed.

Lemma getPitch_frames_example :
  (0 < 2)%nat /\ (length short_signal < 6)%nat
  /\ exists pitches,
       getPitch 6 short_signal 100 2 = Some pitches
       /\ length pitches = (length short_signal / 2)%nat
       /\ Forall (fun p => 1 # 100 <= p) pitches.
Proof.
  split; [lia |]. split; [cbn; lia |].
  apply (getPitch_frames short_signal 100 2 6); cbn; lia.
Defined.

(** X18: with equal frame and hop lengths, as the application uses them,
    [getRMS] and [getPitch] return equally many frames, one per whole hop:
    the truncation to the shorter array drops nothing. *)
Theorem getRMS_matches_getPitch (Math_sqrt : num -> num) (channelData : list Q)
    (sr : Q) (hopLength fuel : nat) :
  (0 < hopLength)%nat -> (length channelData < fuel)%nat ->
  exists rms pitches,
    getRMS Math_sqrt fuel channelData hopLength hopLength = Some rms
    /\ getPitch fuel channelData sr hopLength = Some pitches
    /\ length rms = length pitches
    /\ length rms = (length channelData / hopLength)%nat.
Proof.
  intros Hh Hf.
  assert (Hw : (windows_from (length channelData) hopLength hopLength 0 < fuel)%nat).
  { rewrite windows_whole_hops by exact Hh.
    assert ((length channelData / hopLength <= length channelData)%nat)
      by (apply Nat.Div0.div_le_upper_bound; nia).
    lia. }
  destruct (getRMS_loop_returns Math_sqrt channelData hopLength hopLength fuel 0 Hh Hw)
    as (rms & Er & Lr).
  destruct (getPitch_loop_returns channelData sr hopLength fuel 0 Hh Hw)
    as (pitches & Ep & Lp & _).
  exists rms, pitches. unfold getRMS, getPitch.
  rewrite Lr, Lp, windows_whole_hops by exact Hh. auto.
Qed.

Lemma getRMS_matches_getPitch_example :
  (0 < 2)%nat /\ (length short_signal < 6)%nat
  /\ exists rms pitches,
       getRMS (fun x => x) 6 short_signal 2 2 = Some rms
       /\ getPitch 6 short_signal 100 2 = Some pitches
       /\ length rms = length pitches
       /\ length rms = (length short_signal / 2)%nat.
Proof.
  split; [lia |]. split; [cbn; lia |].
  apply (getRMS_matches_getPitch (fun x => x) short_signal 100 2 6); cbn; lia.
Defined.

(** X19: with [hopLength = 0] neither loop ever ends: [getPitch] returns
    for no amount of fuel, and [getRMS] for none as soon as the data holds
    one frame. *)
Theorem zero_hop_never_returns (Math_sqrt : num -> num) (channelData : list Q)
    (sr : Q) (frameLength fuel : nat) :
  getPitch fuel channelData sr 0 = None
  /\ ((frameLength <= length channelData)%nat ->
      getRMS Math_sqrt fuel channelData frameLength 0 = None).
Proof.
  unfold getPitch, getRMS. split.
  - induction fuel as [| fuel IH]; [reflexivity |].
    cbn [getPitch_loop Nat.add Nat.leb Nat.ltb take length]. rewrite IH. reflexivity.
  - intros Hfl. induction fuel as [| fuel IH]; [reflexivity |].
    cbn [getRMS_loop Nat.add].
    destruct (Nat.leb_spec frameLength (length channelData)); [| lia].
    rewrite IH. reflexivity.
Qed.

(** ** FeatureExtractor: the pitch of a frame *)

Lemma lag_range_elem (startLag endLag lag : Z) :
  lag ∈ lag_range startLag endLag <-> (startLag <= lag < endLag)%Z.
Proof.
  unfold lag_range. rewrite list_elem_of_fmap. split.
  - intros (k & -> & Hk). apply elem_of_seq in Hk. lia.
  - intros H. exists (Z.to_nat (lag - startLag)). split; [lia |].
    apply elem_of_seq. lia.
Qed.

Lemma peak_search_spec (frame : list Q) (hopLength : nat) (lags : list Z)
    (st : PeakState) :
  let st' := fold_left (peak_step frame hopLength) lags st in
  peakValue st <= peakValue st'
  /\ Forall (fun lag => autoCorr frame hopLength (Z.to_nat lag) <= peakValue st') lags
  /\ (st' = st
      \/ (peakLag st' ∈ lags
          /\ peakValue st' = autoCorr frame hopLength (Z.to_nat (peakLag st'))
          /\ peakValue st < peakValue st')).
Proof.
  revert st. induction lags as [| lag lags IH]; intros st; cbn zeta.
  - cbn [fold_left]. split; [lra |]. split; [constructor | left; reflexivity].
  - cbn [fold_left].
    specialize (IH (peak_step frame hopLength st lag)). cbn zeta in IH.
    destruct IH as (Hmono & Hall & Hwhich).
    set (st' := fold_left (peak_step frame hopLength) lags
                          (peak_step frame hopLength st lag)) in *.
    unfold peak_step in Hmono, Hwhich.
    case_Qltb (peakValue st) (autoCorr frame hopLength (Z.to_nat lag));
      cbn [peakValue peakLag] in Hmono, Hwhich.
    + split; [lra |]. split; [constructor; [lra | exact Hall] |].
      right. destruct Hwhich as [-> | (Hin & Hval & Hlt)]; cbn.
      * split; [left |]. split; [reflexivity | exact E].
      * split; [right; exact Hin |]. split; [exact Hval | lra].
    + split; [exact Hmono |]. split; [constructor; [lra | exact Hall] |].
      destruct Hwhich as [Heq | (Hin & Hval & Hlt)]; [left; exact Heq |].
      right. split; [right; exact Hin |]. split; [exact Hval | exact Hlt].
Qed.

Lemma pitch_of_frame_peak_cases (frame : list Q) (sr : Q) (hopLength : nat) :
  let startLag := Z.max 2 (Qfloor (sr / 1000)) in
  let endLag := Z.min (Z.of_nat hopLength - 1) (Qceiling (sr / 50)) in
  let corr := fun lag : Z => autoCorr frame hopLength (Z.to_nat lag) in
  (pitch_of_frame frame sr hopLength = 1 # 100
   /\ forall lag, (startLag <= lag < endLag)%Z -> corr lag <= 0)
  \/ exists lag,
       (startLag <= lag < endLag)%Z
       /\ 0 < corr lag
       /\ (forall lag', (startLag <= lag' < endLag)%Z -> corr lag' <= corr lag)
       /\ pitch_of_frame frame sr hopLength = Qmax (1 # 100) (sr / inject_Z lag).
Proof.
  cbn zeta. unfold pitch_of_frame. cbn zeta.
  set (startLag := Z.max 2 (Qfloor (sr / 1000))).
  set (endLag := Z.min (Z.of_nat hopLength - 1) (Qceiling (sr / 50))).
  pose proof (peak_search_spec frame hopLength (lag_range startLag endLag)
                {| peakValue := 0; peakLag := 0 |}) as Hs.
  cbn zeta in Hs. destruct Hs as (Hmono & Hall & Hwhich).
  set (st := fold_left (peak_step frame hopLength) (lag_range startLag endLag)
                       {| peakValue := 0; peakLag := 0 |}) in *.
  rewrite Forall_forall in Hall.
  destruct Hwhich as [Heq | (Hin & Hval & Hlt)].
  - left. rewrite Heq. cbn. split; [reflexivity |].
    intros lag Hlag. apply lag_range_elem in Hlag.
    specialize (Hall lag Hlag). rewrite Heq in Hall. exact Hall.
  - right. exists (peakLag st). cbn [peakValue] in Hlt.
    pose proof Hin as Hrange. apply lag_range_elem in Hrange.
    split; [exact Hrange |]. rewrite <- Hval. split; [exact Hlt |].
    split.
    + intros lag' Hlag'. apply Hall, lag_range_elem. exact Hlag'.
    + assert (E : (0 <? peakLag st)%Z = true) by (apply Z.ltb_lt; lia).
      rewrite E. reflexivity.
Qed.

(** X20: the pitch of a frame is 0.01 when no lag of the search range has
    a positive autocorrelation; otherwise it is [sr / lag], floored at
    0.01, for a lag of the range whose autocorrelation is positive and not
    exceeded by any other lag of the range. *)
Theorem pitch_of_frame_peak (frame : list Q) (sr : Q) (hopLength : nat) :
  let startLag := Z.max 2 (Qfloor (sr / 1000)) in
  let endLag := Z.min (Z.of_nat hopLength - 1) (Qceiling (sr / 50)) in
  let corr := fun lag : Z => autoCorr frame hopLength (Z.to_nat lag) in
  (pitch_of_frame frame sr hopLength = 1 # 100
   /\ forall lag, (startLag <= lag < endLag)%Z -> corr lag <= 0)
  \/ exists lag,
       (startLag <= lag < endLag)%Z
       /\ 0 < corr lag
       /\ (forall lag', (startLag <= lag' < endLag)%Z -> corr lag' <= corr lag)
       /\ pitch_of_frame frame sr hopLength = Qmax (1 # 100) (sr / inject_Z lag).
Proof. exact (pitch_of_frame_peak_cases frame sr hopLength). Qed.

Lemma zero_default (frame : list Q) (j : nat) :
  Forall (fun x => x == 0) frame -> default 0 (frame !! j) == 0.
Proof.
  intros Hz. destruct (frame !! j) as [x |] eqn:E; cbn; [| reflexivity].
  rewrite Forall_forall in Hz. apply Hz. eapply list_elem_of_lookup_2. exact E.
Qed.

Lemma autoCorr_silence (frame : list Q) (hopLength lag : nat) :
  Forall (fun x => x == 0) frame -> autoCorr frame hopLength lag == 0.
Proof.
  intros Hz. unfold autoCorr.
  assert (H : forall l a, a == 0 ->
            fold_left (fun acc j => acc + default 0 (frame !! j)
                                          * default 0 (frame !! (j + lag)%nat))
                      l a == 0).
  { induction l as [| j l IH]; intros a Ha; [exact Ha |].
    cbn [fold_left]. apply IH.
    rewrite Ha, (zero_default frame j Hz). ring. }
  apply H. reflexivity.
Qed.

Lemma pitch_of_frame_silence (frame : list Q) (sr : Q) (hopLength : nat) :
  Forall (fun x => x == 0) frame -> pitch_of_frame frame sr hopLength = 1 # 100.
Proof.
  intros Hz.
  destruct (pitch_of_frame_peak_cases frame sr hopLength) as [[E _] | (lag & _ & Hpos & _)];
    [exact E |].
  rewrite (autoCorr_silence frame hopLength (Z.to_nat lag) Hz) in Hpos. lra.
Qed.

Lemma getPitch_loop_all (P : Q -> Prop) (channelData : list Q) (sr : Q)
    (hopLength fuel i : nat) (pitches : list Q) :
  (forall j, P (pitch_of_frame (take hopLength (drop j channelData)) sr hopLength)) ->
  getPitch_loop fuel channelData sr hopLength i = Some pitches ->
  Forall P pitches.
Proof.
  intros HP. revert i pitches.
  induction fuel as [| fuel IH]; intros i pitches Hrun; [discriminate |].
  cbn [getPitch_loop] in Hrun.
  destruct (i + hopLength <=? length channelData)%nat;
    [| injection Hrun as <-; constructor].
  destruct (length (take hopLength (drop i channelData)) <? hopLength)%nat;
    [injection Hrun as <-; constructor |].
  destruct (getPitch_loop fuel channelData sr hopLength (i + hopLength)) as [rest |] eqn:E;
    [| discriminate].
  cbn in Hrun. injection Hrun as <-.
  constructor; [apply HP | exact (IH _ _ E)].
Qed.

(** X21: a silent signal has the pitch 0.01 in every frame. *)
Theorem getPitch_silence (channelData : list Q) (sr : Q) (hopLength fuel : nat) :
  Forall (fun x => x == 0) channelData ->
  (0 < hopLength)%nat -> (length channelData < fuel)%nat ->
  exists pitches,
    getPitch fuel channelData sr hopLength = Some pitches
    /\ length pitches = (length channelData / hopLength)%nat
    /\ Forall (fun p => p = 1 # 100) pitches.
Proof.
  intros Hz Hh Hf.
  assert (Hw : (windows_from (length channelData) hopLength hopLength 0 < fuel)%nat).
  { rewrite windows_whole_hops by exact Hh.
    assert ((length channelData / hopLength <= length channelData)%nat)
      by (apply Nat.Div0.div_le_upper_bound; nia).
    lia. }
  destruct (getPitch_loop_returns channelData sr hopLength fuel 0 Hh Hw)
    as (pitches & Ep & Lp & _).
  exists pitches. split; [exact Ep |].
  split; [rewrite Lp; apply windows_whole_hops; exact Hh |].
  apply (getPitch_loop_all _ channelData sr hopLength fuel 0 pitches); [| exact Ep].
  intros j. apply pitch_of_frame_silence. apply Forall_take, Forall_drop. exact Hz.
Qed.

Lemma getPitch_silence_example :
  Forall (fun x => x == 0) [0; 0; 0; 0; 0]
  /\ (0 < 2)%nat /\ (length [0; 0; 0; 0; 0] < 6)%nat
  /\ exists pitches,
       getPitch 6 [0; 0; 0; 0; 0] 44100 2 = Some pitches
       /\ length pitches = (length [0; 0; 0; 0; 0] / 2)%nat
       /\ Forall (fun p => p = 1 # 100) pitches.
Proof.
  assert (H : Forall (fun x => x == 0) [0; 0; 0; 0; 0]) by (repeat constructor).
  split; [exact H |]. split; [lia |]. split; [cbn; lia |].
  apply (getPitch_silence [0; 0; 0; 0; 0] 44100 2 6 H); cbn; lia.
Defined.

(** ** FeatureExtractor: frame times and beats *)

Lemma framesToTime_finite (numFrames : nat) (sr hopLength : Q) :
  ~ sr == 0 ->
  framesToTime numFrames sr hopLength
  = map (fun i => Fin (frame_time sr hopLength i)) (seq 0 numFrames).
Proof.
  intros Hsr. unfold framesToTime. apply map_ext. intros i. cbn [div].
  apply Qeq_bool_false in Hsr. unfold is_zero. rewrite Hsr. reflexivity.
Qed.

Lemma frame_time_increasing (sr hopLength : Q) (i j : nat) :
  0 < sr -> 0 < hopLength -> (i < j)%nat ->
  frame_time sr hopLength i < frame_time sr hopLength j.
Proof.
  intros Hsr Hh Hij. unfold frame_time.
  unfold Qdiv. apply Qmult_lt_compat_r; [apply Qinv_lt_0_compat; exact Hsr |].
  apply Qmult_lt_compat_r; [exact Hh |].
  rewrite <- Zlt_Qlt. lia.
Qed.

(** X22: [framesToTime] returns one time per frame; for a positive sample
    rate and hop the times are finite, start at 0 and increase strictly
    with the frame index. *)
Theorem framesToTime_increasing (numFrames : nat) (sr hopLength : Q) :
  0 < sr -> 0 < hopLength ->
  length (framesToTime numFrames sr hopLength) = numFrames
  /\ (forall i, (i < numFrames)%nat ->
      framesToTime numFrames sr hopLength !! i = Some (Fin (frame_time sr hopLength i)))
  /\ frame_time sr hopLength 0 == 0
  /\ (forall i j, (i < j)%nat ->
      frame_time sr hopLength i < frame_time sr hopLength j).
Proof.
  intros Hsr Hh. rewrite framesToTime_finite by lra.
  split; [rewrite length_map, length_seq; reflexivity |]. split; [| split].
  - intros i Hi. rewrite list_lookup_fmap, lookup_seq_lt by exact Hi. reflexivity.
  - unfold frame_time. cbn. field. lra.
  - intros i j Hij. apply frame_time_increasing; assumption.
Qed.

Lemma framesToTime_increasing_example :
  0 < 44100 /\ 0 < 1024
  /\ length (framesToTime 3 44100 1024) = 3%nat
  /\ (forall i, (i < 3)%nat ->
      framesToTime 3 44100 1024 !! i = Some (Fin (frame_time 44100 1024 i)))
  /\ frame_time 44100 1024 0 == 0
  /\ (forall i j, (i < j)%nat ->
      frame_time 44100 1024 i < frame_time 44100 1024 j).
Proof.
  split; [reflexivity |]. split; [reflexivity |].
  apply (framesToTime_increasing 3 44100 1024); reflexivity.
Defined.

Lemma spaced_snoc (gap t : Q) (times : list Q) :
  spaced gap times ->
  (forall x, list.last times = Some x -> gap < t - x) ->
  spaced gap (times ++ [t]).
Proof.
  induction times as [| a [| b rest] IH]; intros Hs Hlast.
  - exact I.
  - cbn. split; [apply Hlast; reflexivity | exact I].
  - destruct Hs as [Hab Hs]. split; [exact Hab |].
    apply IH; [exact Hs |]. intros x Hx. apply Hlast. exact Hx.
Qed.

Lemma is_peak_test (rmsValues : list Q) (threshold : Q) (i : nat) :
  Qltb threshold (default 0 (rmsValues !! i))
  && Qltb (default 0 (rmsValues !! (i - 1)%nat)) (default 0 (rmsValues !! i))
  && Qltb (default 0 (rmsValues !! (i + 1)%nat)) (default 0 (rmsValues !! i)) = true
  <-> is_peak rmsValues threshold i.
Proof.
  unfold is_peak. rewrite !andb_true_iff, !Qltb_lt. tauto.
Qed.

Lemma beat_step_keeps (rmsValues : list Q) (sr hopLength threshold : Q)
    (st : BeatState) (times : list Q) (m : nat) :
  0 < sr -> 0 < hopLength -> (1 <= m < length rmsValues)%nat ->
  beats_so_far rmsValues sr hopLength threshold st times m ->
  exists times',
    beats_so_far rmsValues sr hopLength threshold
      (beat_step rmsValues (framesToTime (length rmsValues) sr hopLength)
                 threshold st m)
      times' (S m).
Proof.
  intros Hsr Hh Hm (Hb & Hl & Hs & Hpk & Hall).
  assert (Hweak : Forall (fun t => exists i, (1 <= i < S m)%nat
                              /\ is_peak rmsValues threshold i
                              /\ t = frame_time sr hopLength i) times).
  { eapply Forall_impl; [exact Hpk |]. cbn. intros t (i & Hi & Hp & Et).
    exists i. split; [lia | auto]. }
  unfold beat_step. cbn zeta.
  destruct (Qltb threshold (default 0 (rmsValues !! m))
            && Qltb (default 0 (rmsValues !! (m - 1)%nat)) (default 0 (rmsValues !! m))
            && Qltb (default 0 (rmsValues !! (m + 1)%nat)) (default 0 (rmsValues !! m)))
    eqn:Etest.
  - apply is_peak_test in Etest.
    rewrite framesToTime_finite by lra.
    rewrite list_lookup_fmap, lookup_seq_lt by lia.
    cbn [fmap option_fmap option_map default from_option id Nat.add].
    set (now := frame_time sr hopLength m).
    assert (Hbefore : forall x, list.last times = Some x -> x < now).
    { intros x Hx. apply last_Some_elem_of in Hx.
      rewrite Forall_forall in Hpk. destruct (Hpk x Hx) as (i & Hi & _ & ->).
      apply frame_time_increasing; [exact Hsr | exact Hh | lia]. }
    assert (Hnew : (forall x, list.last times = Some x -> 3 # 10 < now - x) ->
                   beats_so_far rmsValues sr hopLength threshold
                     {| beats_found := beats_found st ++ [Fin now];
                        lastPeakTime := Fin now |}
                     (times ++ [now]) (S m)).
    { intros Hgap. unfold beats_so_far. cbn [beats_found lastPeakTime].
      split; [rewrite Hb, map_app; reflexivity |].
      split; [unfold last_time; rewrite last_snoc; reflexivity |].
      split; [apply spaced_snoc; assumption |].
      split.
      - apply Forall_app. split; [exact Hweak |].
        constructor; [| constructor]. exists m. split; [lia | auto].
      - intros j Hj Hp. destruct (Nat.eq_dec j m) as [-> | Hne].
        + exists now. split; [apply elem_of_app; right; left |]. fold now. lra.
        + destruct (Hall j ltac:(lia) Hp) as (t & Ht & Hr).
          exists t. split; [apply elem_of_app; left; exact Ht | exact Hr]. }
    rewrite Hl. unfold last_time in *.
    destruct (list.last times) as [x |] eqn:Elast.
    + cbn [sub neg add ltb].
      case_Qltb (3 # 10) (now + - x).
      * exists (times ++ [now]). apply Hnew. intros y [= <-]. lra.
      * exists times. unfold beats_so_far.
        split; [exact Hb |]. split; [unfold last_time; rewrite Elast; exact Hl |].
        split; [exact Hs |]. split; [exact Hweak |].
        intros j Hj Hp. destruct (Nat.eq_dec j m) as [-> | Hne].
        -- exists x. split; [apply last_Some_elem_of; exact Elast |].
           fold now. specialize (Hbefore x eq_refl). lra.
        -- apply Hall; [lia | exact Hp].
    + cbn [sub neg add ltb].
      exists (times ++ [now]). apply Hnew. intros y [=].
  - exists times. unfold beats_so_far.
    split; [exact Hb |]. split; [exact Hl |]. split; [exact Hs |].
    split; [exact Hweak |].
    intros j Hj Hp. destruct (Nat.eq_dec j m) as [-> | Hne].
    + apply is_peak_test in Hp. congruence.
    + apply Hall; [lia | exact Hp].
Qed.

Lemma beat_loop_keeps (rmsValues : list Q) (sr hopLength threshold : Q)
    (n m : nat) (st : BeatState) (times : list Q) :
  0 < sr -> 0 < hopLength -> (1 <= m)%nat ->
  ((0 < n)%nat -> (m + n <= length rmsValues)%nat) ->
  beats_so_far rmsValues sr hopLength threshold st times m ->
  exists times',
    beats_so_far rmsValues sr hopLength threshold
      (fold_left (beat_step rmsValues (framesToTime (length rmsValues) sr hopLength)
                            threshold)
                 (seq m n) st)
      times' (m + n).
Proof.
  intros Hsr Hh. revert m st times.
  induction n as [| n IH]; intros m st times Hm Hlen Hinv.
  - exists times. rewrite Nat.add_0_r. exact Hinv.
  - cbn [seq fold_left].
    destruct (beat_step_keeps rmsValues sr hopLength threshold st times m
                Hsr Hh ltac:(lia) Hinv) as (times1 & Hinv1).
    destruct (IH (S m) _ times1 ltac:(lia) ltac:(lia) Hinv1) as (times' & Hinv').
    exists times'. rewrite <- Nat.add_succ_comm. exact Hinv'.
Qed.

Lemma getBeats_spec (rmsValues : list Q) (sr hopLength audioDuration : Q) :
  0 < sr -> 0 < hopLength ->
  exists times,
    beats_so_far rmsValues sr hopLength ((2 # 10) * maxRMS_of rmsValues)
      {| beats_found := getBeats rmsValues sr hopLength audioDuration;
         lastPeakTime := last_time times |}
      times (Nat.max 1 (length rmsValues - 1)).
Proof.
  intros Hsr Hh. unfold getBeats. cbn zeta.
  set (threshold := (2 # 10) * maxRMS_of rmsValues).
  destruct (beat_loop_keeps rmsValues sr hopLength threshold
              (length rmsValues - 2) 1 {| beats_found := []; lastPeakTime := NInf |} []
              Hsr Hh ltac:(lia)) as (times & Hinv).
  - lia.
  - unfold beats_so_far. cbn. split; [reflexivity |]. split; [reflexivity |].
    split; [exact I |]. split; [constructor |]. intros j Hj. lia.
  - exists times.
    replace (Nat.max 1 (length rmsValues - 1)) with (1 + (length rmsValues - 2))%nat by lia.
    destruct Hinv as (Hb & Hl & Hrest).
    unfold beats_so_far. cbn [beats_found lastPeakTime].
    split; [exact Hb |]. split; [reflexivity | exact Hrest].
Qed.

Lemma spaced_weaken (gap gap' : Q) (times : list Q) :
  gap' <= gap -> spaced gap times -> spaced gap' times.
Proof.
  intros Hg. induction times as [| a [| b rest] IH]; intros Hs; try exact I.
  destruct Hs as [Hab Hs]. split; [lra | exact (IH Hs)].
Qed.

(** X23: for a positive sample rate and hop, every beat [getBeats]
    returns is the time of a frame, neither the first nor the last, whose
    energy is a strict local maximum above 0.2 times the largest energy;
    and the beats are in strictly increasing order. *)
Theorem getBeats_are_spaced_peaks (rmsValues : list Q)
    (sr hopLength audioDuration : Q) :
  0 < sr -> 0 < hopLength ->
  exists times,
    getBeats rmsValues sr hopLength audioDuration = map Fin times
    /\ spaced 0 times
    /\ Forall (fun t => exists i,
                 (1 <= i)%nat /\ (i + 1 < length rmsValues)%nat
                 /\ is_peak rmsValues ((2 # 10) * maxRMS_of rmsValues) i
                 /\ t = frame_time sr hopLength i) times.
Proof.
  intros Hsr Hh.
  destruct (getBeats_spec rmsValues sr hopLength audioDuration Hsr Hh)
    as (times & Hb & _ & Hs & Hpk & _).
  exists times. split; [exact Hb |].
  split; [apply (spaced_weaken (3 # 10)); [lra | exact Hs] |].
  eapply Forall_impl; [exact Hpk |]. cbn. intros t (i & Hi & Hp & Et).
  exists i. split; [lia |]. split; [lia |]. split; assumption.
Qed.

Lemma getBeats_are_spaced_peaks_example :
  0 < 10 /\ 0 < 1
  /\ exists times,
       getBeats [0; 1; 0; 0; 2; 0; 5; 1; 0] 10 1 1 = map Fin times
       /\ spaced 0 times
       /\ Forall (fun t => exists i,
                    (1 <= i)%nat /\ (i + 1 < length [0; 1; 0; 0; 2; 0; 5; 1; 0])%nat
                    /\ is_peak [0; 1; 0; 0; 2; 0; 5; 1; 0]
                               ((2 # 10) * maxRMS_of [0; 1; 0; 0; 2; 0; 5; 1; 0]) i
                    /\ t = frame_time 10 1 i) times.
Proof.
  split; [reflexivity |]. split; [reflexivity |].
  apply (getBeats_are_spaced_peaks [0; 1; 0; 0; 2; 0; 5; 1; 0] 10 1 1); reflexivity.
Defined.



(** X25: a signal without an interior strict local maximum above the
    threshold (fewer than three frames, a constant or a monotone energy)
    has no beat, whatever the sample rate and the hop. *)
Theorem getBeats_none (rmsValues : list Q) (sr hopLength audioDuration : Q) :
  (forall i, (1 <= i)%nat -> (i + 1 < length rmsValues)%nat ->
             ~ is_peak rmsValues ((2 # 10) * maxRMS_of rmsValues) i) ->
  getBeats rmsValues sr hopLength audioDuration = [].
Proof.
  intros Hnone. unfold getBeats. cbn zeta.
  set (threshold := (2 # 10) * maxRMS_of rmsValues) in *.
  set (frameTimes := framesToTime (length rmsValues) sr hopLength).
  assert (H : forall n m st,
             (1 <= m)%nat -> ((0 < n)%nat -> (m + n < length rmsValues)%nat) ->
             fold_left (beat_step rmsValues frameTimes threshold) (seq m n) st = st).
  { induction n as [| n IH]; intros m st Hm Hn; [reflexivity |].
    cbn [seq fold_left].
    assert (E : beat_step rmsValues frameTimes threshold st m = st).
    { unfold beat_step. cbn zeta.
      match goal with |- (if ?c then _ else _) = _ => destruct c eqn:Etest end;
        [| reflexivity].
      apply is_peak_test in Etest. exfalso.
      apply (Hnone m); [lia | lia | exact Etest]. }
    rewrite E. apply IH; lia. }
  rewrite H; [reflexivity | lia | lia].
Qed.

Lemma getBeats_none_example :
  (forall i, (1 <= i)%nat -> (i + 1 < length [3; 3; 3; 3])%nat ->
             ~ is_peak [3; 3; 3; 3] ((2 # 10) * maxRMS_of [3; 3; 3; 3]) i)
  /\ getBeats [3; 3; 3; 3] 44100 1024 1 = [].
Proof.
  assert (H : forall i, (1 <= i)%nat -> (i + 1 < length [3; 3; 3; 3])%nat ->
                        ~ is_peak [3; 3; 3; 3] ((2 # 10) * maxRMS_of [3; 3; 3; 3]) i).
  { intros i H1 H2 (_ & Hp & _). cbn [length] in H2.
    destruct i as [| [| [| i]]]; try lia; cbn in Hp; discriminate. }
  split; [exact H |]. exact (getBeats_none [3; 3; 3; 3] 44100 1024 1 H).
Defined.

(** ** FeatureExtractor: the segments tile the frames *)












(** ** Heatmap renderer *)

Lemma interpolate_channel (a b : Z) (t_val : Q) :
  (0 <= a <= 255)%Z -> (0 <= b <= 255)%Z -> 0 <= t_val <= 1 ->
  is_channel (ColorMap.interpolate (Fin (inject_Z a)) (Fin (inject_Z b)) (Fin t_val)).
Proof.
  intros [Ha0 Ha1] [Hb0 Hb1] [Ht0 Ht1].
  unfold ColorMap.interpolate. cbn [sub neg add num_mul num_round].
  rewrite Zle_Qle in Ha0, Ha1, Hb0, Hb1.
  set (qa := inject_Z a) in *. set (qb := inject_Z b) in *.
  assert (Hx : inject_Z 0 <= qa + (qb + - qa) * t_val <= inject_Z 255).
  { change (inject_Z 0) with 0 in *. change (inject_Z 255) with 255 in *.
    split; nra. }
  apply Math_round_between in Hx. destruct Hx as [H0 H1].
  unfold Math_round in *. rewrite <- Zle_Qle in H0, H1.
  eexists. split; [reflexivity | lia].
Qed.

Lemma palette_channel (i : nat) :
  (i < 4)%nat ->
  exists zr zg zb : Z,
    num_at ColorMap.r i = Fin (inject_Z zr) /\ (0 <= zr <= 255)%Z
    /\ num_at ColorMap.g i = Fin (inject_Z zg) /\ (0 <= zg <= 255)%Z
    /\ num_at ColorMap.b i = Fin (inject_Z zb) /\ (0 <= zb <= 255)%Z.
Proof.
  intros Hi. destruct i as [| [| [| [| i]]]]; try lia.
  - exists 255%Z, 255%Z, 255%Z. repeat split; lia.
  - exists 0%Z, 128%Z, 0%Z. repeat split; lia.
  - exists 255%Z, 165%Z, 0%Z. repeat split; lia.
  - exists 255%Z, 0%Z, 0%Z. repeat split; lia.
Qed.

Lemma quotient_unit (v lo hi : Q) :
  lo < hi -> lo <= v <= hi -> 0 <= (v + - lo) / (hi + - lo) <= 1.
Proof.
  intros Hd [H0 H1]. split.
  - apply Qle_shift_div_l; lra.
  - apply Qle_shift_div_r; lra.
Qed.

Lemma blend_spec (value : num) :
  exists (i j : nat) (t_val : Q),
    ColorMap.blend value = ColorMap.mkBlend i j (Fin t_val)
    /\ (i < 4)%nat /\ (j < 4)%nat /\ 0 <= t_val <= 1.
Proof.
  assert (Hfirst : exists (i j : nat) (t_val : Q),
             ColorMap.mkBlend 0 0 (Fin 0) = ColorMap.mkBlend i j (Fin t_val)
             /\ (i < 4)%nat /\ (j < 4)%nat /\ 0 <= t_val <= 1).
  { exists 0%nat, 0%nat, 0. repeat split; (lia || lra). }
  assert (Hlast : exists (i j : nat) (t_val : Q),
             ColorMap.mkBlend 3 3 (Fin 1) = ColorMap.mkBlend i j (Fin t_val)
             /\ (i < 4)%nat /\ (j < 4)%nat /\ 0 <= t_val <= 1).
  { exists 3%nat, 3%nat, 1. repeat split; (lia || lra). }
  destruct value as [v | | |]; try exact Hfirst; try exact Hlast.
  unfold ColorMap.blend.
  change (num_at ColorMap.steps 0) with (Fin 0).
  change (num_at ColorMap.steps (length ColorMap.steps - 1)) with (Fin 1).
  change (length ColorMap.steps - 1)%nat with 3%nat.
  cbn [num_le num_ge].
  destruct (Qle_bool v 0); [exact Hfirst |].
  destruct (Qle_bool 1 v); [exact Hlast |].
  cbn [seq ColorMap.search].
  change (num_at ColorMap.steps 0) with (Fin 0).
  change (num_at ColorMap.steps (0 + 1)) with (Fin (33 # 100)).
  change (num_at ColorMap.steps 1) with (Fin (33 # 100)).
  change (num_at ColorMap.steps (1 + 1)) with (Fin (66 # 100)).
  change (num_at ColorMap.steps 2) with (Fin (66 # 100)).
  change (num_at ColorMap.steps (2 + 1)) with (Fin 1).
  cbn [num_le num_ge sub neg add].
  destruct (Qle_bool 0 v) eqn:A0; cbn [andb];
    [destruct (Qle_bool v (33 # 100)) eqn:A1 |].
  - apply Qle_bool_iff in A0, A1.
    exists 0%nat, 1%nat, ((v + - 0) / ((33 # 100) + - 0)).
    split; [reflexivity |]. split; [lia |]. split; [lia |].
    apply quotient_unit; [reflexivity | split; assumption].
  - destruct (Qle_bool (33 # 100) v) eqn:B0; cbn [andb];
      [destruct (Qle_bool v (66 # 100)) eqn:B1 |].
    + apply Qle_bool_iff in B0, B1.
      exists 1%nat, 2%nat, ((v + - (33 # 100)) / ((66 # 100) + - (33 # 100))).
      split; [reflexivity |]. split; [lia |]. split; [lia |].
      apply quotient_unit; [reflexivity | split; assumption].
    + destruct (Qle_bool (66 # 100) v) eqn:C0; cbn [andb];
        [destruct (Qle_bool v 1) eqn:C1 |]; try exact Hfirst.
      apply Qle_bool_iff in C0, C1.
      exists 2%nat, 3%nat, ((v + - (66 # 100)) / (1 + - (66 # 100))).
      split; [reflexivity |]. split; [lia |]. split; [lia |].
      apply quotient_unit; [reflexivity | split; assumption].
    + destruct (Qle_bool (66 # 100) v) eqn:C0; cbn [andb];
        [destruct (Qle_bool v 1) eqn:C1 |]; try exact Hfirst.
      apply Qle_bool_iff in C0, C1.
      exists 2%nat, 3%nat, ((v + - (66 # 100)) / (1 + - (66 # 100))).
      split; [reflexivity |]. split; [lia |]. split; [lia |].
      apply quotient_unit; [reflexivity | split; assumption].
  - destruct (Qle_bool (33 # 100) v) eqn:B0; cbn [andb];
      [destruct (Qle_bool v (66 # 100)) eqn:B1 |].
    + apply Qle_bool_iff in B0, B1.
      exists 1%nat, 2%nat, ((v + - (33 # 100)) / ((66 # 100) + - (33 # 100))).
      split; [reflexivity |]. split; [lia |]. split; [lia |].
      apply quotient_unit; [reflexivity | split; assumption].
    + destruct (Qle_bool (66 # 100) v) eqn:C0; cbn [andb];
        [destruct (Qle_bool v 1) eqn:C1 |]; try exact Hfirst.
      apply Qle_bool_iff in C0, C1.
      exists 2%nat, 3%nat, ((v + - (66 # 100)) / (1 + - (66 # 100))).
      split; [reflexivity |]. split; [lia |]. split; [lia |].
      apply quotient_unit; [reflexivity | split; assumption].
    + destruct (Qle_bool (66 # 100) v) eqn:C0; cbn [andb];
        [destruct (Qle_bool v 1) eqn:C1 |]; try exact Hfirst.
      apply Qle_bool_iff in C0, C1.
      exists 2%nat, 3%nat, ((v + - (66 # 100)) / (1 + - (66 # 100))).
      split; [reflexivity |]. split; [lia |]. split; [lia |].
      apply quotient_unit; [reflexivity | split; assumption].
Qed.

Lemma colorMap_is_colour (value : num) : is_colour (ColorMap.colorMap value).
Proof.
  destruct (blend_spec value) as (i & j & t_val & E & Hi & Hj & Ht).
  unfold ColorMap.colorMap. rewrite E.
  cbn [ColorMap.c1_idx ColorMap.c2_idx ColorMap.t].
  destruct (palette_channel i Hi) as (ar & ag & ab & Er & Hr & Eg & Hg & Eb & Hb).
  destruct (palette_channel j Hj) as (br & bg & bb & Fr & Kr & Fg & Kg & Fb & Kb).
  rewrite Er, Eg, Eb, Fr, Fg, Fb.
  repeat split; cbn [ColorMap.red ColorMap.green ColorMap.blue];
    apply interpolate_channel; assumption.
Qed.

(** X27: whatever number it is given, NaN and the infinities included,
    [colorMap] returns three integers of [0,255]; it returns white for NaN
    and for every value that is at most 0, and red for every value that is
    at least 1. *)
Theorem colorMap_valid_colour (value : num) :
  is_colour (ColorMap.colorMap value)
  /\ (value = NaN \/ num_le value (Fin 0) = true ->
      ColorMap.colorMap value = ColorMap.rgb (Fin 255) (Fin 255) (Fin 255))
  /\ (num_le value (Fin 0) = false -> num_ge value (Fin 1) = true ->
      ColorMap.colorMap value = ColorMap.rgb (Fin 255) (Fin 0) (Fin 0)).
Proof.
  split; [apply colorMap_is_colour |]. split.
  - intros [-> | Hle]; [reflexivity |].
    unfold ColorMap.colorMap, ColorMap.blend.
    change (num_at ColorMap.steps 0) with (Fin 0). rewrite Hle. reflexivity.
  - intros Hle Hge.
    unfold ColorMap.colorMap, ColorMap.blend.
    change (num_at ColorMap.steps 0) with (Fin 0).
    change (num_at ColorMap.steps (length ColorMap.steps - 1)) with (Fin 1).
    rewrite Hle, Hge. reflexivity.
Qed.

Lemma omap_seq (B : Type) (f : nat -> option B) (n k : nat) :
  (forall j, (j < n)%nat -> is_Some (f (k + j)%nat)) ->
  length (omap f (seq k n)) = n
  /\ forall i, (i < n)%nat -> omap f (seq k n) !! i = f (k + i)%nat.
Proof.
  revert k. induction n as [| n IH]; intros k Hall.
  - split; [reflexivity | intros i Hi; lia].
  - cbn [seq].
    destruct (Hall 0%nat ltac:(lia)) as [y Hy]. rewrite Nat.add_0_r in Hy.
    change (omap f (k :: seq (S k) n))
      with (match f k with
            | Some z => z :: omap f (seq (S k) n)
            | None => omap f (seq (S k) n)
            end).
    rewrite Hy.
    destruct (IH (S k)) as [Hlen Hlook].
    { intros j Hj. replace (S k + j)%nat with (k + S j)%nat by lia.
      apply Hall. lia. }
    split; [cbn [length]; rewrite Hlen; reflexivity |].
    intros [| i] Hi.
    + rewrite Nat.add_0_r. cbn. symmetry. exact Hy.
    + change ((y :: omap f (seq (S k) n)) !! S i)
        with (omap f (seq (S k) n) !! i).
      rewrite Hlook by lia. f_equal. lia.
Qed.

Lemma joined_lookup (l : list Stroke) :
  (forall i s s', l !! i = Some s -> l !! S i = Some s' ->
                  x2 s = x1 s' /\ y2 s = y1 s') ->
  joined l.
Proof.
  induction l as [| s [| s' later] IH]; intros H; try exact I.
  destruct (H 0%nat s s' eq_refl eq_refl) as [Hx Hy].
  split; [exact Hx |]. split; [exact Hy |].
  apply IH. intros i u u' Hu Hu'. exact (H (S i) u u' Hu Hu').
Qed.

Lemma canvas_height (pos height : Q) :
  0 <= pos <= 100 -> 0 <= height ->
  0 <= height - pos / 100 * height <= height.
Proof.
  intros [H0 H1] Hh. unfold Qdiv. change (/ 100) with (1 # 100). split; nra.
Qed.

Lemma draw_strokes (data_at width height : Q) (result : list Action) :
  let strokes := draw data_at result width height in
  length strokes = (length result - 1)%nat
  /\ Forall (fun s => is_colour (strokeStyle s)
                      /\ (0 <= height ->
                          Forall (fun a => 0 <= a_pos a <= 100) result ->
                          0 <= y1 s <= height /\ 0 <= y2 s <= height)) strokes
  /\ joined strokes.
Proof.
  cbn zeta. unfold draw.
  destruct (length result <? 2)%nat eqn:Hlen.
  - apply Nat.ltb_lt in Hlen. split; [cbn; lia |]. split; [constructor | exact I].
  - apply Nat.ltb_ge in Hlen.
    set (ns := normalizedSpeeds (pair_speeds 400 result)).
    set (d := effectiveDuration data_at result).
    assert (Lns : length ns = (length result - 1)%nat).
    { unfold ns, normalizedSpeeds, pair_speeds.
      rewrite length_map, consecutive_length. reflexivity. }
    assert (Hsome : forall j, (j < length result - 1)%nat ->
              exists A B s,
                result !! j = Some A /\ result !! S j = Some B
                /\ ns !! j = Some s
                /\ stroke_at result ns d width height j
                   = Some {| strokeStyle := ColorMap.colorMap s;
                             x1 := a_at A / d * width;
                             y1 := height - a_pos A / 100 * height;
                             x2 := a_at B / d * width;
                             y2 := height - a_pos B / 100 * height |}).
    { intros j Hj.
      destruct (lookup_lt_is_Some_2 result j ltac:(lia)) as [A HA].
      destruct (lookup_lt_is_Some_2 result (S j) ltac:(lia)) as [B HB].
      destruct (lookup_lt_is_Some_2 ns j ltac:(lia)) as [s Hs].
      exists A, B, s. repeat split; try assumption.
      unfold stroke_at. rewrite HA, Nat.add_1_r, HB, Hs. reflexivity. }
    destruct (omap_seq Stroke (stroke_at result ns d width height)
                (length result - 1) 0) as [Hl Hlook].
    { intros j Hj. destruct (Hsome j Hj) as (A & B & s & _ & _ & _ & E).
      cbn [Nat.add]. rewrite E. eexists. reflexivity. }
    split; [exact Hl |]. split.
    + apply Forall_lookup_2. intros i st Hst.
      assert (Hi : (i < length result - 1)%nat).
      { rewrite <- Hl. eapply lookup_lt_Some. exact Hst. }
      rewrite (Hlook i Hi) in Hst. cbn [Nat.add] in Hst.
      destruct (Hsome i Hi) as (A & B & s & HA & HB & _ & E).
      rewrite E in Hst. injection Hst as <-.
      cbn [y1 y2 strokeStyle].
      split; [apply colorMap_is_colour |]. intros Hh Hpos.
      pose proof (Forall_lookup_1 _ _ _ _ Hpos HA) as PA.
      pose proof (Forall_lookup_1 _ _ _ _ Hpos HB) as PB.
      cbn beta in PA, PB.
      split; apply canvas_height; assumption.
    + apply joined_lookup. intros i u u' Hu Hu'.
      assert (Hi : (S i < length result - 1)%nat).
      { rewrite <- Hl. eapply lookup_lt_Some. exact Hu'. }
      rewrite (Hlook i ltac:(lia)) in Hu. rewrite (Hlook (S i) Hi) in Hu'.
      cbn [Nat.add] in Hu, Hu'.
      destruct (Hsome i ltac:(lia)) as (A & B & s & HA & HB & _ & E).
      destruct (Hsome (S i) Hi) as (A' & B' & s' & HA' & HB' & _ & E').
      rewrite E in Hu. rewrite E' in Hu'.
      injection Hu as <-. injection Hu' as <-.
      cbn [x1 x2 y1 y2].
      rewrite HB in HA'. injection HA' as <-. split; reflexivity.
Qed.

(** X28: from the actions that the synthesis call returns, the heatmap
    draws one stroke per pair of consecutive actions, each in a colour of
    three integers of [0,255], and every stroke starts where the one
    before it ended.  When the positions of the actions lie in [0,100] and
    the height is not negative, both ends of every stroke lie between the
    top and the bottom of the canvas. *)
Theorem render_heatmap_js_strokes (data : AudioFeatures)
    (energy_multiplier pitch_range overflow width height
     amplitude_centering center_offset : Q) (result : list Action) :
  create_actions data energy_multiplier pitch_range overflow
                 amplitude_centering center_offset = Some result ->
  exists strokes,
    render_heatmap_js data energy_multiplier pitch_range overflow
                      width height amplitude_centering center_offset
    = Some strokes
    /\ length strokes = (length result - 1)%nat
    /\ Forall (fun s => is_colour (strokeStyle s)) strokes
    /\ joined strokes
    /\ (0 <= height -> Forall (fun a => 0 <= a_pos a <= 100) result ->
        Forall (fun s => 0 <= y1 s <= height /\ 0 <= y2 s <= height) strokes).
Proof.
  intros E.
  exists (draw (d_at data) result width height).
  split; [unfold render_heatmap_js; rewrite E; reflexivity |].
  destruct (draw_strokes (d_at data) width height result) as (Hl & Hall & Hj).
  split; [exact Hl |]. split; [| split; [exact Hj |]].
  - eapply Forall_impl; [exact Hall |]. cbn. tauto.
  - intros Hh Hpos. eapply Forall_impl; [exact Hall |]. cbn.
    intros s [_ Hy]. exact (Hy Hh Hpos).
Qed.

Lemma render_heatmap_js_strokes_example :
  exists result,
    create_actions two_beats 1 100 0 0 0 = Some result
    /\ exists strokes,
         render_heatmap_js two_beats 1 100 0 300 100 0 0 = Some strokes
         /\ length strokes = (length result - 1)%nat
         /\ Forall (fun s => is_colour (strokeStyle s)) strokes
         /\ joined strokes
         /\ (0 <= 100 -> Forall (fun a => 0 <= a_pos a <= 100) result ->
             Forall (fun s => 0 <= y1 s <= 100 /\ 0 <= y2 s <= 100) strokes).
Proof.
  eexists. split; [vm_compute; reflexivity |].
  apply (render_heatmap_js_strokes two_beats 1 100 0 300 100 0 0).
  vm_compute. reflexivity.
Defined.
